(** * FEM heat solver: the [HeatEquationSolver] facade of [fem/heat_solver.py]

    The Python class stores five parameters, and its [solve] method runs five
    private stages in a fixed order, each of which reads and assigns attributes
    of the instance and delegates the numerical work to the [dolfin] library.

    The development has two layers.
    - [HeatEquationSolver]: the class itself, embedded as a state-and-exception
      monad over the record of instance attributes.  It is parametric in the
      number type the parameters are stored in (Python floats) and in the
      [dolfin] operations the methods call.
    - [Reference]: the numerical pipeline behind those operations (mesh
      generator, P1 function space, assembler, boundary conditions, linear
      solver), which is not part of the repository's sources, in exact
      rational arithmetic. *)

From Stdlib Require Import ZArith QArith Qcanon Floats String List Lia Lqa Bool
  Permutation.
Import ListNotations.

Set Implicit Arguments.

(** ** Python numbers as the facade uses them

    The facade compares a parameter with [0] and hands the literals [0.0] and
    [1.0] to [near]; it does no arithmetic of its own.  The form language
    compares a number with [0.0] when a form multiplies by it. *)

Class PyFloat (R : Type) : Type := {
  leb  : R -> R -> bool;   (* x <= y *)
  eqb  : R -> R -> bool;   (* x == y *)
  zero : R;                (* 0, 0.0 *)
  one  : R                 (* 1.0 *)
}.

(** CPython floats are IEEE-754 binary64. *)
#[global] Instance float_PyFloat : PyFloat float :=
  {| leb := PrimFloat.leb; eqb := PrimFloat.eqb; zero := 0%float; one := 1%float |}.

(** Exact rationals, for the statements about the numerical result. *)
#[global] Instance Qc_PyFloat : PyFloat Qc :=
  {| leb := fun x y : Qc => Qle_bool x y; eqb := fun x y : Qc => Qeq_bool x y;
     zero := 0%Qc; one := 1%Qc |}.

(** ** The symbolic objects the facade builds and passes to [dolfin] *)

Section Symbolic.
Variables R FunctionSpace : Type.

(** UFL expressions, as far as [_setup_problem] builds them.  [Scale c e]
    stands for the product UFL keeps for [c * e] (it drops a factor 1):
    the solve reads its coefficient and its factor only. *)
Inductive Expr : Type :=
| TrialFunction (V : FunctionSpace)
| TestFunction (V : FunctionSpace)
| grad (e : Expr)
| inner (e1 e2 : Expr)
| Scale (c : R) (e : Expr)       (* the product c * e, c a Python float, not 0 *)
| Zero.                          (* UFL's zero, which a product with 0 folds to *)

(** A form: an integrand with the domain it is integrated over. *)
Inductive Form : Type := Integral_dx (e : Expr).

(** [c * e] for a Python number [c].  UFL makes [c] a literal, and the
    literal of a number that [== 0] is its [Zero]; a product with a [Zero]
    operand is [Zero]. *)
Definition times {PF : PyFloat R} (c : R) (e : Expr) : Expr :=
  if eqb c zero then Zero
  else match e with
       | Zero => Zero
       | _ => Scale c e
       end.

(** The function spaces of the arguments in an expression: where UFL looks
    for the domain of an integral. *)
Fixpoint spaces (e : Expr) : list FunctionSpace :=
  match e with
  | TrialFunction V => [V]
  | TestFunction V => [V]
  | grad e1 => spaces e1
  | inner e1 e2 => spaces e1 ++ spaces e2
  | Scale _ e1 => spaces e1
  | Zero => []
  end.

Definition missing_domain : string :=
  "This integral is missing an integration domain.".

(** [e * dx].  The measure [dx] names no domain, so UFL takes it from the
    integrand, and raises [UFLException] with this message when the
    integrand has none, as [Zero] has.  (The facade's integrands have their
    arguments in one space, so never more than one domain.) *)
Definition times_dx (e : Expr) : string + Form :=
  match spaces e with
  | [] => inl missing_domain
  | _ :: _ => inr (Integral_dx e)
  end.

(** A [SubDomain] subclass is its [inside(x, on_boundary)] method;
    [x] is a point of the plane, [x[0]] its first coordinate. *)
Record SubDomain : Type := { inside : R * R -> bool -> bool }.

(** [DirichletBC(V, Constant(c), sub)] *)
Record DirichletBC : Type := {
  bc_space : FunctionSpace;
  bc_value : R;
  bc_domain : SubDomain
}.
End Symbolic.

Arguments TrialFunction {R FunctionSpace} V.
Arguments TestFunction {R FunctionSpace} V.
Arguments grad {R FunctionSpace} e.
Arguments inner {R FunctionSpace} e1 e2.
Arguments Scale {R FunctionSpace} c e.
Arguments Zero {R FunctionSpace}.
Arguments Integral_dx {R FunctionSpace} e.

(** ** The [dolfin] operations the facade calls *)

Record Dolfin (R : Type) : Type := {
  Mesh : Type;
  FunctionSpace : Type;
  Function : Type;
  DolfinError : Type;                                   (* what the library raises *)
  UFLException : string -> DolfinError;                 (* ufl's exception, by its message *)
  UnitSquareMesh : Z -> Z -> DolfinError + Mesh;
  FunctionSpace_P1 : Mesh -> DolfinError + FunctionSpace; (* FunctionSpace(mesh, 'P', 1) *)
  near : R -> R -> bool;
  new_Function : FunctionSpace -> Function;             (* Function(V) *)
  dolfin_solve :                                        (* solve(a == L, u, bcs) *)
    Form R FunctionSpace -> Form R FunctionSpace -> Function ->
    list (DirichletBC R FunctionSpace) -> DolfinError + Function;
  num_vertices : Mesh -> nat;                           (* mesh.num_vertices() *)
  vector_size : Function -> nat                         (* u.vector().size() *)
}.

(** ** Exceptions and the state monad of an instance *)

Inductive PyExc (E : Type) : Type :=
| ValueError (msg : string)
| AttributeError (name : string)     (* an attribute read before it was assigned *)
| TypeError                          (* [None] handed to the library *)
| Raised (e : E).                    (* an exception of the library, unchanged *)

Arguments ValueError {E} msg.
Arguments AttributeError {E} name.
Arguments TypeError {E}.
Arguments Raised {E} e.

Module HeatEquationSolver.

Definition conductivity_message : string := "Thermal conductivity must be positive".
Definition resolution_message : string := "Mesh resolution must be at least 4".

Section Facade.
Context {R : Type} {PF : PyFloat R} (D : Dolfin R).

#[local] Abbreviation Mesh := (Mesh D).
#[local] Abbreviation FunctionSpace := (FunctionSpace D).
#[local] Abbreviation Function := (Function D).
#[local] Abbreviation Exc := (PyExc (DolfinError D)).

(** [self.params] *)
Record Params : Type := {
  k : R;
  f : R;
  left_temp : R;
  right_temp : R;
  mesh_resolution : Z
}.

(** The attributes of an instance.  [__init__] assigns [params], [mesh]
    and [solution]; [V], [a], [L] and [bcs] exist only once a stage has
    assigned them ([None] here stands for "no such attribute"). *)
Record Solver : Type := {
  params : Params;
  mesh : option Mesh;
  solution : option Function;
  V : option FunctionSpace;
  a : option (Form R FunctionSpace);
  L : option (Form R FunctionSpace);
  bcs : option (list (DirichletBC R FunctionSpace))
}.

Definition __init__ (k f left_temp right_temp : R) (mesh_resolution : Z) : Solver :=
  {| params := {| k := k; f := f; left_temp := left_temp;
                  right_temp := right_temp; mesh_resolution := mesh_resolution |};
     mesh := None; solution := None;
     V := None; a := None; L := None; bcs := None |}.

(** A method body: it may raise, and what it assigned before raising stays
    assigned. *)
Definition M (A : Type) : Type := Solver -> Solver * (Exc + A).

Definition ret {A} (x : A) : M A := fun s => (s, inr x).
Definition raise {A} (e : Exc) : M A := fun s => (s, inl e).
Definition bind {A B} (m : M A) (g : A -> M B) : M B :=
  fun s => match m s with
           | (s', inr x) => g x s'
           | (s', inl e) => (s', inl e)
           end.
Definition get {A} (field : Solver -> A) : M A := fun s => (s, inr (field s)).
Definition getattr {A} (name : string) (field : Solver -> option A) : M A :=
  fun s => match field s with
           | Some x => (s, inr x)
           | None => (s, inl (AttributeError name))
           end.
Definition call {A} (r : DolfinError D + A) : M A :=
  fun s => match r with
           | inr x => (s, inr x)
           | inl e => (s, inl (Raised e))
           end.
Definition modify (g : Solver -> Solver) : M unit := fun s => (g s, inr tt).

Notation "x <- m ;; n" := (bind m (fun x => n))
  (at level 100, m at next level, right associativity).
Notation "m ;;; n" := (bind m (fun _ => n))
  (at level 100, right associativity).

Definition set_mesh (m : Mesh) (s : Solver) : Solver :=
  {| params := params s; mesh := Some m; solution := solution s;
     V := V s; a := a s; L := L s; bcs := bcs s |}.
Definition set_V (v : FunctionSpace) (s : Solver) : Solver :=
  {| params := params s; mesh := mesh s; solution := solution s;
     V := Some v; a := a s; L := L s; bcs := bcs s |}.
Definition set_a (x : Form R FunctionSpace) (s : Solver) : Solver :=
  {| params := params s; mesh := mesh s; solution := solution s;
     V := V s; a := Some x; L := L s; bcs := bcs s |}.
Definition set_L (x : Form R FunctionSpace) (s : Solver) : Solver :=
  {| params := params s; mesh := mesh s; solution := solution s;
     V := V s; a := a s; L := Some x; bcs := bcs s |}.
Definition set_bcs (x : list (DirichletBC R FunctionSpace)) (s : Solver) : Solver :=
  {| params := params s; mesh := mesh s; solution := solution s;
     V := V s; a := a s; L := L s; bcs := Some x |}.
Definition set_solution (u : Function) (s : Solver) : Solver :=
  {| params := params s; mesh := mesh s; solution := Some u;
     V := V s; a := a s; L := L s; bcs := bcs s |}.

Definition _validate_parameters : M unit :=
  p <- get params ;;
  if leb (k p) zero then
    raise (ValueError conductivity_message)
  else if (mesh_resolution p <? 4)%Z then
    raise (ValueError resolution_message)
  else ret tt.

Definition _create_mesh : M unit :=
  p <- get params ;;
  m <- call (UnitSquareMesh D (mesh_resolution p) (mesh_resolution p)) ;;
  modify (set_mesh m).

(** [e * dx], as a statement of a method: what UFL raises reaches the
    caller. *)
Definition integral (e : Expr R FunctionSpace) : M (Form R FunctionSpace) :=
  match times_dx e with
  | inr form => ret form
  | inl msg => raise (Raised (UFLException D msg))
  end.

Definition _setup_problem : M unit :=
  om <- get mesh ;;
  match om with
  | None => raise TypeError
  | Some m =>
      v <- call (FunctionSpace_P1 D m) ;;
      modify (set_V v) ;;;
      let u := TrialFunction v in
      let w := TestFunction v in
      p <- get params ;;
      a_ <- integral (times (k p) (inner (grad u) (grad w))) ;;
      L_ <- integral (times (f p) w) ;;
      modify (set_a a_) ;;;
      modify (set_L L_)
  end.

(** The two [SubDomain] classes local to [_apply_boundary_conditions]. *)
Definition LeftBoundary : SubDomain R :=
  {| inside := fun x on_boundary => on_boundary && near D (fst x) zero |}.
Definition RightBoundary : SubDomain R :=
  {| inside := fun x on_boundary => on_boundary && near D (fst x) one |}.

Definition _apply_boundary_conditions : M unit :=
  v <- getattr "V" V ;;
  p <- get params ;;
  modify (set_bcs
    [ {| bc_space := v; bc_value := left_temp p; bc_domain := LeftBoundary |};
      {| bc_space := v; bc_value := right_temp p; bc_domain := RightBoundary |} ]).

Definition _solve_system : M unit :=
  v <- getattr "V" V ;;
  let u := new_Function D v in
  a_ <- getattr "a" a ;;
  L_ <- getattr "L" L ;;
  b <- getattr "bcs" bcs ;;
  u' <- call (dolfin_solve D a_ L_ u b) ;;
  modify (set_solution u').

Definition solve : M (option Mesh * option Function) :=
  _validate_parameters ;;;
  _create_mesh ;;;
  _setup_problem ;;;
  _apply_boundary_conditions ;;;
  _solve_system ;;;
  m <- get mesh ;;
  u <- get solution ;;
  ret (m, u).

(** The body of [solve] as a machine: the stage reached so far is the
    position in the body, and each step runs the next private method.  The
    instance itself records no stage. *)
Inductive Stage : Type :=
| Unvalidated | Validated | MeshBuilt | Assembled | Constrained | Solved.

Definition next_stage (st : Stage) : option (M unit * Stage) :=
  match st with
  | Unvalidated => Some (_validate_parameters, Validated)
  | Validated => Some (_create_mesh, MeshBuilt)
  | MeshBuilt => Some (_setup_problem, Assembled)
  | Assembled => Some (_apply_boundary_conditions, Constrained)
  | Constrained => Some (_solve_system, Solved)
  | Solved => None
  end.

Definition rank (st : Stage) : nat :=
  match st with
  | Unvalidated => 0 | Validated => 1 | MeshBuilt => 2
  | Assembled => 3 | Constrained => 4 | Solved => 5
  end.

(** The stages passed through from [st], ending where a method raises or at
    [Solved]. *)
Fixpoint run (fuel : nat) (st : Stage) (s : Solver)
  : Solver * (Exc + unit) * list Stage :=
  match fuel with
  | O => (s, inr tt, [st])
  | S fuel' =>
      match next_stage st with
      | None => (s, inr tt, [st])
      | Some (m, st') =>
          match m s with
          | (s', inr _) =>
              let '(r, trace) := run fuel' st' s' in (r, st :: trace)
          | (s', inl e) => (s', inl e, [st])
          end
      end
  end.

End Facade.
End HeatEquationSolver.

(** ** The tests of [tests/test_heat_solver.py]

    The tests construct instances from float literals and keyword
    arguments, so they are stated over binary64 parameters. *)

Module test_heat_solver.
Import HeatEquationSolver.

(** How a pytest test function ends: it passes, an [assert] or a
    [pytest.raises] block fails it, or an exception escapes it. *)
Inductive Outcome (E : Type) : Type :=
| Passed
| Failed
| Errored (e : PyExc E).

Arguments Passed {E}.
Arguments Failed {E}.
Arguments Errored {E} e.

(** [with pytest.raises(ValueError): body], followed by the rest of the
    test: a [ValueError] is swallowed and the test goes on, any other
    exception propagates, and a [body] that returns fails the test. *)
Definition raises_ValueError {E A : Type} (body : PyExc E + A) (rest : Outcome E)
  : Outcome E :=
  match body with
  | inl (ValueError _) => rest
  | inl e => Errored e
  | inr _ => Failed
  end.

Section Tests.
Variable D : Dolfin float.

(** The value of a keyword parameter: the argument of the call, or the
    default of the signature when the call leaves it out. *)
Definition keyword {A : Type} (given : option A) (default : A) : A :=
  match given with
  | Some x => x
  | None => default
  end.

(** The call [HeatEquationSolver(...)] with keyword arguments, [None] for
    one that is left out: the defaults are those of the signature of
    [__init__], [k=1.0, f=0.0, left_temp=100.0, right_temp=0.0,
    mesh_resolution=32]. *)
Definition construct (k f left_temp right_temp : option float)
    (mesh_resolution : option Z) : Solver D :=
  __init__ D (keyword k 1%float) (keyword f 0%float)
    (keyword left_temp 100%float) (keyword right_temp 0%float)
    (keyword mesh_resolution 32%Z).

(** The test unpacks the pair and calls a method of each component, which
    [None] does not have. *)
Definition test_basic_solution : Outcome (DolfinError D) :=
  let solver := construct (Some 1%float) (Some 0%float) (Some 100%float)
                          (Some 0%float) (Some 8%Z) in
  match snd (solve solver) with
  | inl e => Errored e
  | inr (mesh, solution) =>
      match mesh with
      | None => Errored (AttributeError "num_vertices")
      | Some m =>
          if negb (num_vertices D m =? 81)%nat then Failed
          else match solution with
               | None => Errored (AttributeError "vector")
               | Some u =>
                   if negb (vector_size D u =? 81)%nat then Failed else Passed
               end
      end
  end.

Definition test_parameter_validation : Outcome (DolfinError D) :=
  raises_ValueError
    (snd (solve (construct (Some (-1)%float) None None None None)))
    (raises_ValueError
       (snd (solve (construct None None None None (Some 3%Z))))
       Passed).
End Tests.
End test_heat_solver.

(** ** The numerical pipeline behind the [dolfin] calls

    Modelled from the spec: the mesh generator, P1 function space, element
    assembler, boundary-condition enforcer and linear solver (spec sections
    4.1 to 4.5), which [heat_solver.py] imports from [dolfin] and which are
    not among the repository's sources.  Numbers are exact rationals, so the
    linear solve is exact and no rounding is modelled. *)

Module Reference.
Local Open Scope Qc_scope.

Inductive Error : Type :=
| InvalidParameter      (* resolution below 1 *)
| DegenerateElement     (* a triangle of zero area *)
| NoBoundaryDofsFound   (* a condition whose predicate matches no DOF *)
| SingularSystem        (* no pivot: the constrained system is not solvable *)
| ConvergenceFailure    (* of an iterative method; the elimination below is direct *)
| UnsupportedForm       (* a form other than the two [_setup_problem] builds *)
| FormError (msg : string).   (* not of the spec: what the form language raises *)

Definition Qc_of_nat (i : nat) : Qc := Q2Qc (inject_Z (Z.of_nat i)).
Definition two : Qc := 1 + 1.
Definition three : Qc := 1 + 1 + 1.
Definition Qcabs (x : Qc) : Qc := if Qle_bool 0 x then x else - x.
Definition Qcleb (x y : Qc) : bool := Qle_bool x y.
Definition Qceqb (x y : Qc) : bool := Qeq_bool x y.

(** *** 4.1 Mesh generator *)

Record mesh : Type := {
  vertices : list (Qc * Qc);          (* vertex index -> coordinates *)
  cells : list (nat * nat * nat)      (* triangles, as vertex indices *)
}.

(** Row-major: vertex index = row * (n+1) + column. *)
Definition vertex_index (nx ix iy : nat) : nat := iy * S nx + ix.

Definition grid_vertices (nx ny : nat) : list (Qc * Qc) :=
  flat_map (fun iy =>
    map (fun ix => (Qc_of_nat ix / Qc_of_nat nx, Qc_of_nat iy / Qc_of_nat ny))
        (seq 0 (S nx)))
    (seq 0 (S ny)).

(** The two triangles of the grid cell whose lower left corner is
    [(ix, iy)], split along the diagonal from that corner. *)
Definition cell_triangles (nx ix iy : nat) : list (nat * nat * nat) :=
  let v0 := vertex_index nx ix iy in
  let v1 := vertex_index nx (S ix) iy in
  let v2 := vertex_index nx ix (S iy) in
  let v3 := vertex_index nx (S ix) (S iy) in
  [ (v0, v1, v3); (v0, v2, v3) ].

Definition grid_cells (nx ny : nat) : list (nat * nat * nat) :=
  flat_map (fun iy => flat_map (fun ix => cell_triangles nx ix iy) (seq 0 nx))
           (seq 0 ny).

Definition unit_square_mesh (nx ny : Z) : Error + mesh :=
  if ((nx <? 1) || (ny <? 1))%Z then inl InvalidParameter
  else inr {| vertices := grid_vertices (Z.to_nat nx) (Z.to_nat ny);
              cells := grid_cells (Z.to_nat nx) (Z.to_nat ny) |}.

Definition vertex_count (m : mesh) : nat := length (vertices m).
Definition point (m : mesh) (i : nat) : Qc * Qc := nth i (vertices m) (0, 0).

(** *** 4.2 Function space: one DOF per vertex, DOF index = vertex index *)

Record function_space : Type := { fs_mesh : mesh }.

Definition dim (V : function_space) : nat := vertex_count (fs_mesh V).

(** Twice the signed area of the triangle [p0 p1 p2]. *)
Definition det (p0 p1 p2 : Qc * Qc) : Qc :=
  (fst p1 - fst p0) * (snd p2 - snd p0) - (fst p2 - fst p0) * (snd p1 - snd p0).

Definition area (p0 p1 p2 : Qc * Qc) : Qc := Qcabs (det p0 p1 p2) / two.

(** Gradients of the three P1 basis functions: the edge opposite the vertex,
    turned by a right angle, over twice the area. *)
Definition basis_gradients (p0 p1 p2 : Qc * Qc) : list (Qc * Qc) :=
  let d := det p0 p1 p2 in
  [ ((snd p1 - snd p2) / d, (fst p2 - fst p1) / d);
    ((snd p2 - snd p0) / d, (fst p0 - fst p2) / d);
    ((snd p0 - snd p1) / d, (fst p1 - fst p0) / d) ].

Definition degenerate (m : mesh) (t : nat * nat * nat) : bool :=
  let '(i0, i1, i2) := t in
  Qceqb (det (point m i0) (point m i1) (point m i2)) 0.

Definition P1 (m : mesh) : Error + function_space :=
  if existsb (degenerate m) (cells m) then inl DegenerateElement
  else inr {| fs_mesh := m |}.

(** *** 4.3 Element assembler *)

Definition dot2 (g h : Qc * Qc) : Qc := fst g * fst h + snd g * snd h.

(** Global DOF index and basis gradient of each local vertex. *)
Definition local_basis (m : mesh) (t : nat * nat * nat) : list (nat * (Qc * Qc)) :=
  let '(i0, i1, i2) := t in
  combine [i0; i1; i2] (basis_gradients (point m i0) (point m i1) (point m i2)).

Definition triangle_area (m : mesh) (t : nat * nat * nat) : Qc :=
  let '(i0, i1, i2) := t in area (point m i0) (point m i1) (point m i2).

(** [K_e[i][j] = k * Area * (grad phi_i . grad phi_j)], with the global
    row and column it is added to. *)
Definition element_stiffness (k : Qc) (m : mesh) (t : nat * nat * nat)
  : list (nat * nat * Qc) :=
  flat_map (fun ig =>
    map (fun jh => (fst ig, fst jh, k * triangle_area m t * dot2 (snd ig) (snd jh)))
        (local_basis m t))
    (local_basis m t).

(** [F_e[i] = f * Area / 3], with the global row it is added to. *)
Definition element_load (f : Qc) (m : mesh) (t : nat * nat * nat)
  : list (nat * Qc) :=
  map (fun ig => (fst ig, f * triangle_area m t / three)) (local_basis m t).

Fixpoint update {A : Type} (l : list A) (i : nat) (g : A -> A) : list A :=
  match l, i with
  | [], _ => []
  | x :: t, O => g x :: t
  | x :: t, S j => x :: update t j g
  end.

Definition matrix : Type := list (list Qc).
Definition vector : Type := list Qc.

Definition entry (A : matrix) (r c : nat) : Qc := nth c (nth r A []) 0.

Definition scatter_add_matrix (A : matrix) (e : nat * nat * Qc) : matrix :=
  let '(r, c, x) := e in update A r (fun row => update row c (fun y => y + x)).

Definition scatter_add_vector (b : vector) (e : nat * Qc) : vector :=
  let '(r, x) := e in update b r (fun y => y + x).

Definition zeros (n : nat) : vector := repeat 0 n.

Definition assemble (k f : Qc) (V : function_space) : matrix * vector :=
  let m := fs_mesh V in
  let n := dim V in
  (fold_left scatter_add_matrix (flat_map (element_stiffness k m) (cells m))
             (repeat (zeros n) n),
   fold_left scatter_add_vector (flat_map (element_load f m) (cells m))
             (zeros n)).

(** *** 4.4 Boundary condition enforcer *)

(** The domain is the unit square. *)
Definition on_boundary (p : Qc * Qc) : bool :=
  Qceqb (fst p) 0 || Qceqb (fst p) 1 || Qceqb (snd p) 0 || Qceqb (snd p) 1.

Definition selects (V : function_space) (bc : DirichletBC Qc function_space)
                   (d : nat) : bool :=
  let p := point (fs_mesh V) d in
  inside (bc_domain bc) p (on_boundary p).

(** The value prescribed at a DOF: that of the last condition that selects
    it (so the right edge wins over the left one). *)
Definition prescribed (V : function_space)
    (bcs : list (DirichletBC Qc function_space)) (d : nat) : option Qc :=
  fold_left (fun acc bc => if selects V bc d then Some (bc_value bc) else acc)
            bcs None.

Definition bc_set (V : function_space)
    (bcs : list (DirichletBC Qc function_space)) : list (nat * Qc) :=
  flat_map (fun d => match prescribed V bcs d with
                     | Some v => [(d, v)]
                     | None => []
                     end)
           (seq 0 (dim V)).

(** Row [d] becomes the identity row and [b[d] = v]; every other row [r]
    gives up [A[r][d] * v] to [b[r]] and gets [A[r][d] = 0]. *)
Definition constrain (S : matrix * vector) (dv : nat * Qc) : matrix * vector :=
  let '(A, b) := S in
  let '(d, v) := dv in
  let n := length b in
  (map (fun r =>
      map (fun c =>
          if r =? d then (if c =? d then 1 else 0)
          else if c =? d then 0 else entry A r c)
        (seq 0 n))
     (seq 0 n),
   map (fun r => if r =? d then v else nth r b 0 - entry A r d * v) (seq 0 n)).

Definition enforce (S : matrix * vector) (pairs : list (nat * Qc))
  : matrix * vector :=
  fold_left constrain pairs S.

(** Whether the predicate of a condition matches some DOF. *)
Definition matches (V : function_space) (bc : DirichletBC Qc function_space)
  : bool :=
  existsb (selects V bc) (seq 0 (dim V)).

(** The enforcer: it fails when a predicate matches no DOF, and else
    enforces every prescribed value. *)
Definition enforce_conditions (V : function_space)
    (bcs : list (DirichletBC Qc function_space)) (S : matrix * vector)
  : Error + matrix * vector :=
  if forallb (matches V) bcs then inr (enforce S (bc_set V bcs))
  else inl NoBoundaryDofsFound.

(** *** 4.5 Linear solver: Gaussian elimination *)

(** An equation: coefficients of the unknowns still to be eliminated, and
    right-hand side. *)
Definition equation : Type := (list Qc * Qc)%type.

Definition lead (e : equation) : Qc := hd 0 (fst e).

(** The first equation whose leading coefficient is not zero, and the
    others in their order. *)
Fixpoint find_pivot (eqs : list equation) : option (equation * list equation) :=
  match eqs with
  | [] => None
  | e :: rest =>
      if Qceqb (lead e) 0 then
        match find_pivot rest with
        | Some (p, others) => Some (p, e :: others)
        | None => None
        end
      else Some (e, rest)
  end.

(** [e - (lead e / lead p) * p], without its leading coefficient (now 0). *)
Definition eliminate (p e : equation) : equation :=
  let q := lead e / lead p in
  (map (fun xy => fst xy - q * snd xy) (combine (tl (fst e)) (tl (fst p))),
   snd e - q * snd p).

Definition dot (x y : list Qc) : Qc :=
  fold_right Qcplus 0 (map (fun xy => fst xy * snd xy) (combine x y)).

Definition back_substitute (p : equation) (u : list Qc) : Qc :=
  (snd p - dot (tl (fst p)) u) / lead p.

Fixpoint gauss (n : nat) (eqs : list equation) : option (list Qc) :=
  match n with
  | O => Some []
  | S n' =>
      match find_pivot eqs with
      | None => None
      | Some (p, others) =>
          match gauss n' (map (eliminate p) others) with
          | None => None
          | Some u => Some (back_substitute p u :: u)
          end
      end
  end.

Definition linear_solve (S : matrix * vector) : Error + vector :=
  match gauss (length (snd S)) (combine (fst S) (snd S)) with
  | Some u => inr u
  | None => inl SingularSystem
  end.

(** *** The operations as the facade calls them *)

Record function : Type := { fn_space : function_space; values : vector }.

Definition stiffness_coefficient (a : Form Qc function_space) : option Qc :=
  match a with
  | Integral_dx (Scale k (inner (grad (TrialFunction _)) (grad (TestFunction _)))) =>
      Some k
  | _ => None
  end.

Definition load_coefficient (L : Form Qc function_space) : option Qc :=
  match L with
  | Integral_dx (Scale f (TestFunction _)) => Some f
  | _ => None
  end.

Definition solve_variational (a L : Form Qc function_space) (u : function)
    (bcs : list (DirichletBC Qc function_space)) : Error + function :=
  match stiffness_coefficient a, load_coefficient L with
  | Some k, Some f =>
      let V := fn_space u in
      match enforce_conditions V bcs (assemble k f V) with
      | inl e => inl e
      | inr constrained =>
          match linear_solve constrained with
          | inr x => inr {| fn_space := V; values := x |}
          | inl e => inl e
          end
      end
  | _, _ => inl UnsupportedForm
  end.

(** [tol] is the absolute tolerance of the edge predicates' comparison. *)
Definition dolfin (tol : Qc) : Dolfin Qc :=
  {| Mesh := mesh;
     FunctionSpace := function_space;
     Function := function;
     DolfinError := Error;
     UFLException := FormError;
     UnitSquareMesh := unit_square_mesh;
     FunctionSpace_P1 := P1;
     near := fun x x0 => Qcleb (Qcabs (x - x0)) tol;
     new_Function := fun V => {| fn_space := V; values := zeros (dim V) |};
     dolfin_solve := solve_variational;
     num_vertices := vertex_count;
     vector_size := fun u => length (values u) |}.

End Reference.

(** * Analysis

    What follows states and proves the properties of the two layers.  The
    definitions come first: views of the facade's data, finite sums, and
    the structured mesh by its grid positions. *)

Unset Implicit Arguments.
Import Reference HeatEquationSolver.
Local Open Scope Qc_scope.

Section FacadeViews.
Context {R : Type} {PF : PyFloat R} (D : Dolfin R).

(** The forms and conditions [_setup_problem] and
    [_apply_boundary_conditions] build over a space [v]. *)
Definition form_a (p : @Params R) (v : FunctionSpace D) : Form R (FunctionSpace D) :=
  Integral_dx (Scale (k p) (inner (grad (TrialFunction v)) (grad (TestFunction v)))).
Definition form_L (p : @Params R) (v : FunctionSpace D) : Form R (FunctionSpace D) :=
  Integral_dx (Scale (f p) (TestFunction v)).
Definition conditions (p : @Params R) (v : FunctionSpace D)
  : list (DirichletBC R (FunctionSpace D)) :=
  [ {| bc_space := v; bc_value := left_temp p; bc_domain := LeftBoundary D |};
    {| bc_space := v; bc_value := right_temp p; bc_domain := RightBoundary D |} ].

(** The instance after the first four stages have run with mesh [m] and
    space [v]. *)
Definition constrained (m : Mesh D) (v : FunctionSpace D) (s : Solver D) : Solver D :=
  set_bcs (conditions (params s) v)
    (set_L (form_L (params s) v)
      (set_a (form_a (params s) v) (set_V v (set_mesh m s)))).

(** How a failed [solve] leaves the instance: the parameters and the
    solution attribute are as before; either nothing changed (validation
    or the mesh generator failed), or the mesh that was built is on the
    instance, alone (the function space failed), with the function space
    (a form could not be built), or with the function space, the forms and
    the conditions (the variational solve failed). *)
Definition failure_outcome (s s' : Solver D) (e : PyExc (DolfinError D)) : Prop :=
  params s' = params s /\ solution s' = solution s /\
  let p := params s in
  let n := mesh_resolution p in
  ((s' = s /\
    ((exists msg, e = ValueError msg) \/
     (exists e0, e = Raised e0 /\ UnitSquareMesh D n n = inl e0))) \/
   (exists m e0,
      UnitSquareMesh D n n = inr m /\ e = Raised e0 /\ mesh s' = Some m /\
      ((FunctionSpace_P1 D m = inl e0 /\ s' = set_mesh m s) \/
       exists v, FunctionSpace_P1 D m = inr v /\ V s' = Some v /\
         ((eqb (k p) zero || eqb (f p) zero = true /\
           e0 = UFLException D (missing_domain) /\
           s' = set_V v (set_mesh m s)) \/
          (dolfin_solve D (form_a p v) (form_L p v)
             (new_Function D v) (conditions p v) = inl e0 /\
           s' = constrained m v s))))).
End FacadeViews.

Definition all_stages : list Stage :=
  [Unvalidated; Validated; MeshBuilt; Assembled; Constrained; Solved].

(** Finite sums of rationals. *)
Definition sum_over {A : Type} (g : A -> Qc) (l : list A) : Qc :=
  fold_right Qcplus 0 (map g l).

(** A square matrix of size [n]. *)
Definition well_shaped (A : matrix) (n : nat) : Prop :=
  length A = n /\ Forall (fun row => length row = n) A.

(** Row [r] of [A] times the vector [u], over [n] columns. *)
Definition row_dot (A : matrix) (n r : nat) (u : nat -> Qc) : Qc :=
  sum_over (fun c => entry A r c * u c) (seq 0 n).

Definition vec (u : vector) : nat -> Qc := fun i => nth i u 0.

(** What a scattered entry adds at position [(r, c)], at row [r]. *)
Definition hits (r c : nat) (e : nat * nat * Qc) : Qc :=
  if (fst (fst e) =? r) && (snd (fst e) =? c) then snd e else 0.
Definition hits_row (r : nat) (e : nat * Qc) : Qc :=
  if fst e =? r then snd e else 0.

(** Row [r] of [A u - b]. *)
Definition residual (S : matrix * vector) (u : nat -> Qc) (r : nat) : Qc :=
  row_dot (fst S) (length (snd S)) r u - nth r (snd S) 0.

Definition in_range (n : nat) (t : nat * nat * nat) : Prop :=
  (fst (fst t) < n)%nat /\ (snd (fst t) < n)%nat /\ (snd t < n)%nat.

(** The gradient on triangle [t] of the piecewise linear function with
    nodal values [u]. *)
Definition gradient (m : Reference.mesh) (t : nat * nat * nat) (u : nat -> Qc)
  : Qc * Qc :=
  (sum_over (fun ig => u (fst ig) * fst (snd ig)) (local_basis m t),
   sum_over (fun ig => u (fst ig) * snd (snd ig)) (local_basis m t)).

(** The bilinear form the assembled matrix represents. *)
Definition energy_form (k : Qc) (m : Reference.mesh) (w u : nat -> Qc) : Qc :=
  sum_over (fun t => k * triangle_area m t * dot2 (gradient m t w) (gradient m t u))
           (cells m).

(** The mesh [unit_square_mesh n n] builds, by grid position. *)
Definition grid (n : nat) : Reference.mesh :=
  {| vertices := grid_vertices n n; cells := grid_cells n n |}.
Definition node (n ix iy : nat) : nat := vertex_index n ix iy.
Definition lower (n ix iy : nat) : nat * nat * nat :=
  (node n ix iy, node n (S ix) iy, node n (S ix) (S iy)).
Definition upper (n ix iy : nat) : nat * nat * nat :=
  (node n ix iy, node n ix (S iy), node n (S ix) (S iy)).

(** The two conditions of the facade over the grid of resolution [n]. *)
Definition left_bc (n : nat) (tol v : Qc) : DirichletBC Qc function_space :=
  {| bc_space := {| fs_mesh := grid n |}; bc_value := v;
     bc_domain := LeftBoundary (dolfin tol) |}.
Definition right_bc (n : nat) (tol v : Qc) : DirichletBC Qc function_space :=
  {| bc_space := {| fs_mesh := grid n |}; bc_value := v;
     bc_domain := RightBoundary (dolfin tol) |}.

(** The tolerance the spec gives as its example, 1e-10. *)
Definition tolerance : Qc := Q2Qc (1 # 10000000000).

(** A one-triangle mesh of the right half of the square: no vertex has
    x = 0. *)
Definition right_strip : Reference.mesh :=
  {| vertices := [ (1 / two, 0); (1, 0); (1, 1) ];
     cells := [ (0, 1, 2)%nat ] |}.
Definition strip_space : function_space := {| fs_mesh := right_strip |}.

(** The instances the examples run: two with the default source
    [f = 0.0], the second that of [test_basic_solution], and two with a
    source, the second holding a mesh from elsewhere. *)
Definition first_run : Solver (dolfin tolerance) :=
  __init__ (dolfin tolerance) 1 0 (Q2Qc 100) 0 4.
Definition basic_run : Solver (dolfin tolerance) :=
  __init__ (dolfin tolerance) 1 0 (Q2Qc 100) 0 8.
Definition heated_run : Solver (dolfin tolerance) :=
  __init__ (dolfin tolerance) 1 1 (Q2Qc 100) 0 4.
Definition used_run : Solver (dolfin tolerance) :=
  set_mesh (D := dolfin tolerance) right_strip heated_run.


(** The linear form the assembled load vector represents: a third of
    [f * Area] at each vertex of each triangle. *)
Definition load_form (f : Qc) (m : Reference.mesh) (w : nat -> Qc) : Qc :=
  sum_over (fun t => sum_over (fun ig => w (fst ig) * (f * triangle_area m t / three))
                              (local_basis m t))
           (cells m).

(** The solution of [-k u'' = f] on the unit interval that is [lt] at 0
    and [rt] at 1. *)
Definition parabola (k f lt rt x : Qc) : Qc :=
  lt + x * (rt - lt) + f / (two * k) * (x * (1 - x)).

(** Its values at the vertices of the grid, by their x. *)
Definition profile (n : nat) (k f lt rt : Qc) (d : nat) : Qc :=
  parabola k f lt rt (fst (point (grid n) d)).

(** ** Rationals *)

Lemma Qc_eq_iff (x y : Qc) : x = y <-> (this x == this y)%Q.
Proof. split; [intros ->; reflexivity | apply Qc_is_canon]. Qed.

Ltac qc_unfold :=
  unfold Qcle, Qclt, Qcdiv, Qcminus, Qcinv, Qcopp, Qcmult, Qcplus, Q2Qc in *;
  cbn [this] in *; rewrite ?Qred_correct in *.

Lemma Qceqb_eq (x y : Qc) : Qceqb x y = true <-> x = y.
Proof. unfold Qceqb. rewrite Qeq_bool_iff. symmetry. apply Qc_eq_iff. Qed.

Lemma Qceqb_neq (x y : Qc) : Qceqb x y = false <-> x <> y.
Proof.
  rewrite <- Qceqb_eq. destruct (Qceqb x y); split; congruence.
Qed.

Lemma Qcleb_le (x y : Qc) : Qcleb x y = true <-> x <= y.
Proof. unfold Qcleb. apply Qle_bool_iff. Qed.

(** ** Finite sums *)


Lemma sum_over_nil {A} (g : A -> Qc) : sum_over g [] = 0.
Proof. reflexivity. Qed.

Lemma sum_over_cons {A} (g : A -> Qc) x l :
  sum_over g (x :: l) = g x + sum_over g l.
Proof. reflexivity. Qed.

Lemma sum_over_app {A} (g : A -> Qc) l1 l2 :
  sum_over g (l1 ++ l2) = sum_over g l1 + sum_over g l2.
Proof.
  induction l1 as [|x l1 IH]; simpl.
  - rewrite sum_over_nil. ring.
  - rewrite !sum_over_cons, IH. ring.
Qed.

Lemma sum_over_flat_map {A B} (g : B -> Qc) (h : A -> list B) l :
  sum_over g (flat_map h l) = sum_over (fun x => sum_over g (h x)) l.
Proof.
  induction l as [|x l IH]; simpl; [reflexivity|].
  rewrite sum_over_app, sum_over_cons, IH. reflexivity.
Qed.

Lemma sum_over_map {A B} (g : B -> Qc) (h : A -> B) l :
  sum_over g (map h l) = sum_over (fun x => g (h x)) l.
Proof. unfold sum_over. rewrite map_map. reflexivity. Qed.

Lemma sum_over_ext {A} (g g' : A -> Qc) l :
  (forall x, In x l -> g x = g' x) -> sum_over g l = sum_over g' l.
Proof.
  induction l as [|x l IH]; intros H; [reflexivity|].
  rewrite !sum_over_cons, H, IH; [reflexivity| |left; reflexivity].
  intros y Hy. apply H. right. exact Hy.
Qed.

Lemma sum_over_zero {A} (l : list A) : sum_over (fun _ => 0) l = 0.
Proof. induction l as [|x l IH]; [reflexivity|]. rewrite sum_over_cons, IH. ring. Qed.

Lemma sum_over_plus {A} (g h : A -> Qc) l :
  sum_over (fun x => g x + h x) l = sum_over g l + sum_over h l.
Proof.
  induction l as [|x l IH]; [rewrite !sum_over_nil; ring|].
  rewrite !sum_over_cons, IH. ring.
Qed.

Lemma sum_over_minus {A} (g h : A -> Qc) l :
  sum_over (fun x => g x - h x) l = sum_over g l - sum_over h l.
Proof.
  induction l as [|x l IH]; [rewrite !sum_over_nil; ring|].
  rewrite !sum_over_cons, IH. ring.
Qed.

Lemma sum_over_scale {A} (c : Qc) (g : A -> Qc) l :
  sum_over (fun x => c * g x) l = c * sum_over g l.
Proof.
  induction l as [|x l IH]; [rewrite !sum_over_nil; ring|].
  rewrite !sum_over_cons, IH. ring.
Qed.

Lemma sum_over_swap {A B} (g : A -> B -> Qc) la lb :
  sum_over (fun x => sum_over (fun y => g x y) lb) la =
  sum_over (fun y => sum_over (fun x => g x y) la) lb.
Proof.
  induction la as [|x la IH].
  - rewrite sum_over_nil. symmetry. apply sum_over_zero.
  - rewrite sum_over_cons, IH. rewrite <- sum_over_plus. reflexivity.
Qed.

(** A sum whose only non-zero term is the one at [d]. *)
Lemma sum_over_pick (g : nat -> Qc) (d n : nat) :
  (d < n)%nat ->
  sum_over (fun c => if c =? d then g c else 0) (seq 0 n) = g d.
Proof.
  intros Hd.
  replace n with (d + (1 + (n - d - 1)))%nat by lia.
  rewrite !seq_app, !sum_over_app. simpl seq.
  rewrite sum_over_cons, sum_over_nil, Nat.eqb_refl.
  rewrite (sum_over_ext _ (fun _ => 0)), sum_over_zero.
  2:{ intros c Hc. apply in_seq in Hc. destruct (Nat.eqb_spec c d); [lia|reflexivity]. }
  rewrite (sum_over_ext _ (fun _ => 0) (seq _ _)), sum_over_zero.
  2:{ intros c Hc. apply in_seq in Hc. destruct (Nat.eqb_spec c d); [lia|reflexivity]. }
  ring.
Qed.

Lemma sum_over_pick_out (g : nat -> Qc) (d n : nat) :
  (n <= d)%nat ->
  sum_over (fun c => if c =? d then g c else 0) (seq 0 n) = 0.
Proof.
  intros Hd. rewrite (sum_over_ext _ (fun _ => 0)), sum_over_zero; [reflexivity|].
  intros c Hc. apply in_seq in Hc. destruct (Nat.eqb_spec c d); [lia|reflexivity].
Qed.

Lemma sum_over_skip (g : nat -> Qc) (d n : nat) :
  (d < n)%nat ->
  sum_over (fun c => if c =? d then 0 else g c) (seq 0 n) =
  sum_over g (seq 0 n) - g d.
Proof.
  intros Hd.
  assert (E : sum_over g (seq 0 n) - g d =
              sum_over g (seq 0 n) -
              sum_over (fun c => if c =? d then g c else 0) (seq 0 n)).
  { rewrite (sum_over_pick g d n Hd). reflexivity. }
  rewrite E, <- sum_over_minus. apply sum_over_ext.
  intros c _. destruct (c =? d); ring.
Qed.

Lemma sum_over_telescope (g : nat -> Qc) (n : nat) :
  sum_over (fun i => g (S i) - g i) (seq 0 n) = g n - g O.
Proof.
  induction n as [|n IH]; [cbn; ring|].
  rewrite seq_S, sum_over_app, IH, sum_over_cons, sum_over_nil. cbn [Nat.add]. ring.
Qed.

Lemma Qc_sq_nonneg (x : Qc) : 0 <= x * x.
Proof. qc_unfold. nra. Qed.

Lemma sum_over_nonneg {A} (g : A -> Qc) l :
  (forall x, In x l -> 0 <= g x) -> 0 <= sum_over g l.
Proof.
  induction l as [|x l IH]; intros H; [apply Qcle_refl|].
  rewrite sum_over_cons.
  replace 0 with (0 + 0) by ring.
  apply Qcplus_le_compat; [apply H; left; reflexivity|].
  apply IH. intros y Hy. apply H. right. exact Hy.
Qed.

Lemma Qc_nonneg_sum_zero (x y : Qc) : 0 <= x -> 0 <= y -> x + y = 0 -> x = 0 /\ y = 0.
Proof.
  rewrite !Qc_eq_iff. qc_unfold. intros. simpl. split; lra.
Qed.

(** A sum of non-negative terms is zero only if every term is. *)
Lemma sum_over_zero_terms {A} (g : A -> Qc) l :
  (forall x, In x l -> 0 <= g x) -> sum_over g l = 0 ->
  forall x, In x l -> g x = 0.
Proof.
  induction l as [|y l IH]; intros Hpos Hsum x Hx; [destruct Hx|].
  rewrite sum_over_cons in Hsum.
  apply Qc_nonneg_sum_zero in Hsum.
  - destruct Hsum as [H0 Hl]. destruct Hx as [<-|Hx]; [exact H0|].
    apply IH; auto. intros z Hz. apply Hpos. right. exact Hz.
  - apply Hpos. left. reflexivity.
  - apply sum_over_nonneg. intros z Hz. apply Hpos. right. exact Hz.
Qed.

(** ** Gaussian elimination *)

Lemma dot_cons (a b : Qc) x y : dot (a :: x) (b :: y) = a * b + dot x y.
Proof. reflexivity. Qed.

Lemma dot_nil_r x : dot x [] = 0.
Proof. destruct x; reflexivity. Qed.

Lemma dot_zeros x n : dot x (zeros n) = 0.
Proof.
  revert n. induction x as [|a x IH]; intros [|n]; try reflexivity.
  unfold zeros in *. simpl repeat. rewrite dot_cons, IH. ring.
Qed.

Lemma dot_eliminate (q : Qc) a b u :
  length a = length b ->
  dot (map (fun xy => fst xy - q * snd xy) (combine a b)) u = dot a u - q * dot b u.
Proof.
  revert b u. induction a as [|x a IH]; intros [|y b] u H; try discriminate.
  - simpl. unfold dot. simpl. ring.
  - destruct u as [|z u].
    + rewrite !dot_nil_r. ring.
    + simpl combine. simpl map. rewrite !dot_cons, IH by (simpl in H; lia).
      simpl. ring.
Qed.

Lemma find_pivot_some eqs p others :
  find_pivot eqs = Some (p, others) ->
  lead p <> 0 /\ Permutation eqs (p :: others).
Proof.
  revert p others. induction eqs as [|e eqs IH]; intros p others H; [discriminate|].
  simpl in H. destruct (Qceqb (lead e) 0) eqn:E.
  - destruct (find_pivot eqs) as [[p' o']|]; [|discriminate].
    injection H as <- <-. destruct (IH _ _ eq_refl) as [Hp Hperm].
    split; [exact Hp|]. rewrite Hperm. apply perm_swap.
  - injection H as <- <-. split; [apply Qceqb_neq; exact E|reflexivity].
Qed.

Lemma find_pivot_none eqs :
  find_pivot eqs = None -> Forall (fun e => lead e = 0) eqs.
Proof.
  induction eqs as [|e eqs IH]; intros H; [constructor|].
  simpl in H. destruct (Qceqb (lead e) 0) eqn:E; [|discriminate].
  destruct (find_pivot eqs) as [[p' o']|]; [discriminate|].
  constructor; [apply Qceqb_eq; exact E|apply IH; reflexivity].
Qed.

Lemma eliminate_length p e n :
  length (fst p) = S n -> length (fst e) = S n ->
  length (fst (eliminate p e)) = n.
Proof.
  intros Hp He. unfold eliminate. simpl.
  destruct (fst p) as [|ph pc], (fst e) as [|h rc]; try discriminate.
  simpl in *. rewrite length_map, length_combine. lia.
Qed.

Lemma eliminate_dot p e u n :
  length (fst p) = S n -> length (fst e) = S n ->
  dot (fst (eliminate p e)) u =
  dot (tl (fst e)) u - lead e / lead p * dot (tl (fst p)) u.
Proof.
  intros Hp He. unfold eliminate. simpl. apply dot_eliminate.
  destruct (fst p) as [|ph pc], (fst e) as [|h rc]; try discriminate.
  simpl in *. lia.
Qed.

Lemma dot_lead e x u n :
  length (fst e) = S n ->
  dot (fst e) (x :: u) = lead e * x + dot (tl (fst e)) u.
Proof.
  unfold lead. destruct (fst e) as [|h rc]; [discriminate|]. reflexivity.
Qed.

Theorem gauss_sound n : forall eqs u,
  length eqs = n ->
  Forall (fun e => length (fst e) = n) eqs ->
  gauss n eqs = Some u ->
  length u = n /\ Forall (fun e => dot (fst e) u = snd e) eqs.
Proof.
  induction n as [|n IH]; intros eqs u Hlen Hrows H.
  - destruct eqs; [|discriminate]. injection H as <-. split; [reflexivity|constructor].
  - simpl in H. destruct (find_pivot eqs) as [[p others]|] eqn:Ep; [|discriminate].
    destruct (gauss n (map (eliminate p) others)) as [u'|] eqn:Eg; [|discriminate].
    injection H as <-.
    destruct (find_pivot_some _ _ _ Ep) as [Hp Hperm].
    assert (Hrows' : Forall (fun e => length (fst e) = S n) (p :: others)).
    { rewrite <- Hperm. exact Hrows. }
    inversion Hrows' as [|? ? Hpl Hol]; subst.
    assert (Hlo : length others = n).
    { pose proof (Permutation_length Hperm) as HL. simpl in HL.
      unfold equation in *. lia. }
    destruct (IH (map (eliminate p) others) u') as [Hu' Hsat].
    + rewrite length_map. exact Hlo.
    + apply Forall_map. eapply Forall_impl; [|exact Hol].
      intros e He. apply eliminate_length; assumption.
    + exact Eg.
    + split; [simpl; lia|].
      rewrite Hperm. constructor.
      * rewrite (dot_lead p _ _ n Hpl). unfold back_substitute. field. exact Hp.
      * apply Forall_map in Hsat.
        rewrite Forall_forall in *. intros e He.
        specialize (Hsat e He). specialize (Hol e He). cbv beta in Hsat.
        rewrite (eliminate_dot p e u' n Hpl Hol) in Hsat.
        rewrite (dot_lead e _ _ n Hol). unfold back_substitute.
        unfold eliminate in Hsat. simpl in Hsat.
        transitivity (dot (tl (fst e)) u' - lead e / lead p * dot (tl (fst p)) u'
                      + lead e / lead p * snd p).
        { field. exact Hp. }
        rewrite Hsat. field. exact Hp.
Qed.

Theorem gauss_complete n : forall eqs,
  length eqs = n ->
  Forall (fun e => length (fst e) = n) eqs ->
  (forall w, length w = n ->
     Forall (fun e => dot (fst e) w = 0) eqs -> Forall (fun x => x = 0) w) ->
  exists u, gauss n eqs = Some u.
Proof.
  induction n as [|n IH]; intros eqs Hlen Hrows Hker.
  - exists []. reflexivity.
  - simpl. destruct (find_pivot eqs) as [[p others]|] eqn:Ep.
    + destruct (find_pivot_some _ _ _ Ep) as [Hp Hperm].
      assert (Hrows' : Forall (fun e => length (fst e) = S n) (p :: others)).
      { rewrite <- Hperm. exact Hrows. }
      inversion Hrows' as [|? ? Hpl Hol]; subst.
      assert (Hlo : length others = n).
      { pose proof (Permutation_length Hperm) as HL. simpl in HL.
        unfold equation in *. lia. }
      destruct (IH (map (eliminate p) others)) as [u' Hu'].
      * rewrite length_map. exact Hlo.
      * apply Forall_map. eapply Forall_impl; [|exact Hol].
        intros e He. apply eliminate_length; assumption.
      * intros w' Hw' Hz.
        assert (Hall : Forall (fun x => x = 0)
                         (- dot (tl (fst p)) w' / lead p :: w')).
        { apply Hker; [simpl; lia|]. rewrite Hperm. constructor.
          - rewrite (dot_lead p _ _ n Hpl). field. exact Hp.
          - apply Forall_map in Hz. rewrite Forall_forall in *. intros e He.
            specialize (Hz e He). specialize (Hol e He). cbv beta in Hz.
            rewrite (eliminate_dot p e w' n Hpl Hol) in Hz.
            rewrite (dot_lead e _ _ n Hol).
            transitivity (dot (tl (fst e)) w' - lead e / lead p * dot (tl (fst p)) w').
            { field. exact Hp. }
            exact Hz. }
        inversion Hall; assumption.
      * rewrite Hu'. eexists. reflexivity.
    + exfalso. apply find_pivot_none in Ep.
      assert (Hall : Forall (fun x => x = 0) (1 :: zeros n)).
      { apply Hker; [simpl; unfold zeros; rewrite repeat_length; reflexivity|].
        rewrite Forall_forall in *. intros e He.
        rewrite (dot_lead e _ _ n (Hrows e He)), (Ep e He), dot_zeros. ring. }
      inversion Hall as [|? ? H1 _]. discriminate H1.
Qed.

(** ** Vectors and matrices *)




Lemma sum_over_seq_shift (g : nat -> Qc) s n :
  sum_over g (seq (S s) n) = sum_over (fun i => g (S i)) (seq s n).
Proof. rewrite <- seq_shift, sum_over_map. reflexivity. Qed.

Lemma dot_row x : forall u n,
  length x = n -> length u = n ->
  dot x u = sum_over (fun c => nth c x 0 * nth c u 0) (seq 0 n).
Proof.
  induction x as [|a x IH]; intros [|b u] [|n] Hx Hu; try discriminate.
  - reflexivity.
  - rewrite dot_cons. simpl seq. rewrite sum_over_cons, sum_over_seq_shift.
    simpl nth. rewrite (IH u n) by (simpl in *; lia). reflexivity.
Qed.

Lemma update_length {A} (l : list A) i g : length (update l i g) = length l.
Proof.
  revert i. induction l as [|x l IH]; intros [|i]; simpl; try reflexivity.
  rewrite IH. reflexivity.
Qed.

Lemma update_nth {A} (l : list A) i g j d :
  (j < length l)%nat ->
  nth j (update l i g) d = if j =? i then g (nth j l d) else nth j l d.
Proof.
  revert i j. induction l as [|x l IH]; intros i j H; [simpl in H; lia|].
  destruct i as [|i], j as [|j]; simpl; try reflexivity.
  apply IH. simpl in H. lia.
Qed.

Lemma update_Forall {A} (P : A -> Prop) (l : list A) i g :
  (forall x, P x -> P (g x)) -> Forall P l -> Forall P (update l i g).
Proof.
  intros Hg. revert i. induction l as [|x l IH]; intros i H; [constructor|].
  inversion H; subst. destruct i; simpl; constructor; auto.
Qed.

Lemma entry_zero n r c : entry (repeat (zeros n) n) r c = 0.
Proof.
  unfold entry.
  destruct (Nat.lt_ge_cases r n) as [Hr|Hr].
  - rewrite nth_repeat_lt by exact Hr. unfold zeros.
    destruct (Nat.lt_ge_cases c n) as [Hc|Hc].
    + apply nth_repeat_lt. exact Hc.
    + apply nth_overflow. rewrite repeat_length. exact Hc.
  - rewrite (nth_overflow (repeat _ _)) by (rewrite repeat_length; exact Hr).
    destruct c; reflexivity.
Qed.

Lemma zero_matrix_shaped n : well_shaped (repeat (zeros n) n) n.
Proof.
  split; [apply repeat_length|]. apply Forall_forall. intros row H.
  apply repeat_spec in H. subst. apply repeat_length.
Qed.

Lemma scatter_add_matrix_shaped A n e :
  well_shaped A n -> well_shaped (scatter_add_matrix A e) n.
Proof.
  intros [HA Hrows]. destruct e as [[r c] x]. simpl. split.
  - rewrite update_length. exact HA.
  - apply update_Forall; [|exact Hrows]. intros row H. rewrite update_length. exact H.
Qed.


Lemma scatter_add_matrix_entry A n e r c :
  well_shaped A n -> (r < n)%nat -> (c < n)%nat ->
  entry (scatter_add_matrix A e) r c = entry A r c + hits r c e.
Proof.
  intros [HA Hrows] Hr Hc. destruct e as [[r' c'] x]. unfold hits, entry. simpl.
  rewrite update_nth by lia. rewrite (Nat.eqb_sym r' r).
  destruct (r =? r'); simpl; [|ring].
  rewrite update_nth.
  - rewrite (Nat.eqb_sym c' c). destruct (c =? c'); ring.
  - rewrite Forall_forall in Hrows. rewrite (Hrows (nth r A [])); [exact Hc|].
    apply nth_In. lia.
Qed.

Lemma assembled_entry es : forall A n r c,
  well_shaped A n -> (r < n)%nat -> (c < n)%nat ->
  entry (fold_left scatter_add_matrix es A) r c =
  entry A r c + sum_over (hits r c) es.
Proof.
  induction es as [|e es IH]; intros A n r c HA Hr Hc; simpl.
  - rewrite sum_over_nil. ring.
  - rewrite (IH _ n) by (try apply scatter_add_matrix_shaped; assumption).
    rewrite (scatter_add_matrix_entry A n) by assumption.
    rewrite sum_over_cons. ring.
Qed.

Lemma assembled_shaped es : forall A n,
  well_shaped A n -> well_shaped (fold_left scatter_add_matrix es A) n.
Proof.
  induction es as [|e es IH]; intros A n HA; simpl; [exact HA|].
  apply IH, scatter_add_matrix_shaped, HA.
Qed.


Lemma assembled_vector es : forall b r,
  (r < length b)%nat ->
  nth r (fold_left scatter_add_vector es b) 0 =
  nth r b 0 + sum_over (hits_row r) es.
Proof.
  induction es as [|e es IH]; intros b r Hr; simpl.
  - rewrite sum_over_nil. ring.
  - rewrite IH.
    + rewrite sum_over_cons. destruct e as [r' x]. unfold hits_row. simpl.
      rewrite update_nth by exact Hr. rewrite (Nat.eqb_sym r' r).
      destruct (r =? r'); ring.
    + destruct e as [r' x]. simpl. rewrite update_length. exact Hr.
Qed.

Lemma assembled_vector_length es : forall b,
  length (fold_left scatter_add_vector es b) = length b.
Proof.
  induction es as [|e es IH]; intros b; simpl; [reflexivity|].
  rewrite IH. destruct e. simpl. apply update_length.
Qed.

(** ** Constraining a system *)

Lemma nth_map_seq {A} (g : nat -> A) n r d :
  (r < n)%nat -> nth r (map g (seq 0 n)) d = g r.
Proof.
  intros H. rewrite (nth_indep _ d (g 0%nat)) by (rewrite length_map, length_seq; exact H).
  rewrite map_nth, seq_nth by exact H. reflexivity.
Qed.


Lemma constrain_length (S : matrix * vector) dv : length (snd (constrain S dv)) = length (snd S).
Proof.
  destruct S as [A b], dv as [d v]. simpl. rewrite length_map, length_seq. reflexivity.
Qed.

Lemma constrain_shaped (S : matrix * vector) dv :
  well_shaped (fst (constrain S dv)) (length (snd S)).
Proof.
  destruct S as [A b], dv as [d v]. simpl. split.
  - rewrite length_map, length_seq. reflexivity.
  - apply Forall_map, Forall_forall. intros r _.
    rewrite length_map, length_seq. reflexivity.
Qed.

Lemma constrain_entry A b d v r c :
  (r < length b)%nat -> (c < length b)%nat ->
  entry (fst (constrain (A, b) (d, v))) r c =
  if r =? d then (if c =? d then 1 else 0)
  else if c =? d then 0 else entry A r c.
Proof.
  intros Hr Hc. unfold entry at 1. simpl.
  rewrite (nth_indep _ [] (map (fun c => 0) (seq 0 (length b))))
    by (rewrite length_map, length_seq; exact Hr).
  rewrite (nth_map_seq (fun r0 => map _ _)) by exact Hr.
  rewrite nth_map_seq by exact Hc. reflexivity.
Qed.

Lemma constrain_row_dot A b d v r u :
  (d < length b)%nat -> (r < length b)%nat ->
  row_dot (fst (constrain (A, b) (d, v))) (length b) r u =
  if r =? d then u d else row_dot A (length b) r u - entry A r d * u d.
Proof.
  intros Hd Hr. unfold row_dot.
  rewrite (sum_over_ext _ (fun c =>
     if r =? d then (if c =? d then 1 * u c else 0)
     else (if c =? d then 0 else entry A r c * u c))).
  2:{ intros c Hc. apply in_seq in Hc. rewrite constrain_entry by lia.
      destruct (r =? d), (c =? d); ring. }
  destruct (r =? d).
  - rewrite (sum_over_pick (fun c => 1 * u c)) by exact Hd. ring.
  - rewrite (sum_over_skip (fun c => entry A r c * u c)) by exact Hd. reflexivity.
Qed.

Lemma constrain_residual (S : matrix * vector) d v u r :
  (d < length (snd S))%nat -> (r < length (snd S))%nat ->
  residual (constrain S (d, v)) u r =
  if r =? d then u d - v
  else residual S u r - entry (fst S) r d * (u d - v).
Proof.
  destruct S as [A b]. change (snd (A, b)) with b. change (fst (A, b)) with A.
  intros Hd Hr. unfold residual. rewrite constrain_length.
  change (snd (A, b)) with b. change (fst (A, b)) with A.
  rewrite constrain_row_dot by assumption.
  change (snd (constrain (A, b) (d, v)))
    with (map (fun r => if r =? d then v else nth r b 0 - entry A r d * v)
              (seq 0 (length b))).
  rewrite nth_map_seq by exact Hr.
  destruct (r =? d); ring.
Qed.

Lemma enforce_length pairs : forall S : matrix * vector,
  length (snd (enforce S pairs)) = length (snd S).
Proof.
  induction pairs as [|dv pairs IH]; intros S; [reflexivity|].
  change (enforce S (dv :: pairs)) with (enforce (constrain S dv) pairs).
  rewrite IH. apply constrain_length.
Qed.

Lemma enforce_shaped pairs : forall S : matrix * vector,
  well_shaped (fst S) (length (snd S)) ->
  well_shaped (fst (enforce S pairs)) (length (snd S)).
Proof.
  induction pairs as [|dv pairs IH]; intros S HS; [exact HS|].
  change (enforce S (dv :: pairs)) with (enforce (constrain S dv) pairs).
  rewrite <- (constrain_length S dv). apply IH.
  rewrite constrain_length. apply constrain_shaped.
Qed.

(** What a solution of the constrained system satisfies: the prescribed
    values, and the original equations at the free DOFs. *)
Lemma enforce_solved pairs : forall (S : matrix * vector) u,
  NoDup (map fst pairs) ->
  (forall dv, In dv pairs -> (fst dv < length (snd S))%nat) ->
  (forall r, (r < length (snd S))%nat -> residual (enforce S pairs) u r = 0) ->
  (forall dv, In dv pairs -> u (fst dv) = snd dv) /\
  (forall r, (r < length (snd S))%nat -> ~ In r (map fst pairs) ->
             residual S u r = 0).
Proof.
  induction pairs as [|[d v] pairs IH]; intros S u Hnd Hin Hres.
  - split; [intros dv []|]. intros r Hr _. apply Hres. exact Hr.
  - simpl in Hnd. inversion Hnd as [|? ? Hd Hnd']; subst.
    assert (Hdl : (d < length (snd S))%nat) by (apply (Hin (d, v)); left; reflexivity).
    destruct (IH (constrain S (d, v)) u Hnd') as [Hag Hfree].
    + intros dv Hdv. rewrite constrain_length. apply Hin. right. exact Hdv.
    + intros r Hr. rewrite constrain_length in Hr. apply Hres. exact Hr.
    + assert (Hud : u d = v).
      { specialize (Hfree d). rewrite constrain_length in Hfree.
        specialize (Hfree Hdl Hd). rewrite constrain_residual in Hfree by assumption.
        rewrite Nat.eqb_refl in Hfree.
        transitivity (u d - v + v); [ring|]. rewrite Hfree. ring. }
      split.
      * intros dv [<-|Hdv]; [exact Hud|apply Hag; exact Hdv].
      * intros r Hr Hnot. simpl in Hnot.
        specialize (Hfree r). rewrite constrain_length in Hfree.
        assert (Hnr : ~ In r (map fst pairs)) by tauto.
        specialize (Hfree Hr Hnr). rewrite constrain_residual in Hfree by assumption.
        destruct (Nat.eqb_spec r d) as [E|Hne]; [exfalso; apply Hnot; left; symmetry; exact E|].
        rewrite Hud in Hfree. rewrite <- Hfree. ring.
Qed.

Lemma constrain_fst_indep (S S' : matrix * vector) d v v' :
  fst S = fst S' -> length (snd S) = length (snd S') ->
  fst (constrain S (d, v)) = fst (constrain S' (d, v')).
Proof.
  destruct S as [A b], S' as [A' b']. simpl. intros -> ->. reflexivity.
Qed.

Lemma enforce_fst_indep pairs : forall (S S' : matrix * vector),
  fst S = fst S' -> length (snd S) = length (snd S') ->
  fst (enforce S pairs) =
  fst (enforce S' (map (fun dv : nat * Qc => (fst dv, 0)) pairs)).
Proof.
  induction pairs as [|[d v] pairs IH]; intros S S' HA Hb; [exact HA|].
  change (enforce S ((d, v) :: pairs)) with (enforce (constrain S (d, v)) pairs).
  change (enforce S' (map (fun dv : nat * Qc => (fst dv, 0)) ((d, v) :: pairs)))
    with (enforce (constrain S' (d, 0)) (map (fun dv : nat * Qc => (fst dv, 0)) pairs)).
  apply IH.
  - apply constrain_fst_indep; assumption.
  - rewrite !constrain_length. exact Hb.
Qed.

Lemma enforce_homogeneous pairs : forall (S : matrix * vector),
  (forall r, nth r (snd S) 0 = 0) ->
  forall r, nth r (snd (enforce S (map (fun dv : nat * Qc => (fst dv, 0)) pairs))) 0 = 0.
Proof.
  induction pairs as [|[d v] pairs IH]; intros S HS r; [apply HS|].
  change (enforce S (map (fun dv : nat * Qc => (fst dv, 0)) ((d, v) :: pairs)))
    with (enforce (constrain S (d, 0)) (map (fun dv : nat * Qc => (fst dv, 0)) pairs)).
  apply IH. clear r. intros r. destruct S as [A b].
  change (snd (constrain (A, b) (d, 0)))
    with (map (fun r => if r =? d then 0 else nth r b 0 - entry A r d * 0)
              (seq 0 (length b))).
  destruct (Nat.lt_ge_cases r (length b)) as [Hr|Hr].
  - rewrite nth_map_seq by exact Hr. simpl in HS. rewrite HS.
    destruct (r =? d); ring.
  - apply nth_overflow. rewrite length_map, length_seq. exact Hr.
Qed.

(** The kernel of a constrained matrix: zero at the constrained DOFs, in
    the kernel of the free rows of the original matrix. *)
Lemma enforce_kernel pairs (A : matrix) (b : vector) (w : nat -> Qc) :
  NoDup (map fst pairs) ->
  (forall dv, In dv pairs -> (fst dv < length b)%nat) ->
  (forall r, (r < length b)%nat ->
     row_dot (fst (enforce (A, b) pairs)) (length b) r w = 0) ->
  (forall d, In d (map fst pairs) -> w d = 0) /\
  (forall r, (r < length b)%nat -> ~ In r (map fst pairs) ->
     row_dot A (length b) r w = 0).
Proof.
  intros Hnd Hin Hrows.
  set (S0 := (A, zeros (length b)) : matrix * vector).
  set (pairs0 := map (fun dv : nat * Qc => (fst dv, 0)) pairs).
  assert (Hl0 : length (snd S0) = length b) by apply repeat_length.
  assert (Hz : forall r, nth r (snd S0) 0 = 0).
  { intros r. simpl. unfold zeros. destruct (Nat.lt_ge_cases r (length b)).
    - apply nth_repeat_lt. assumption.
    - apply nth_overflow. rewrite repeat_length. assumption. }
  assert (Hfst : map fst pairs0 = map fst pairs).
  { unfold pairs0. rewrite map_map. reflexivity. }
  destruct (enforce_solved pairs0 S0 w) as [Hag Hfree].
  - rewrite Hfst. exact Hnd.
  - intros dv Hdv. rewrite Hl0. unfold pairs0 in Hdv. apply in_map_iff in Hdv.
    destruct Hdv as [dv' [<- Hdv']]. simpl. apply Hin. exact Hdv'.
  - intros r Hr. unfold residual. rewrite enforce_length, Hl0.
    unfold pairs0. rewrite enforce_homogeneous by exact Hz.
    rewrite <- (enforce_fst_indep pairs (A, b) S0) by (auto; rewrite Hl0; reflexivity).
    rewrite Hrows by (rewrite <- Hl0; exact Hr). ring.
  - split.
    + intros d Hd. rewrite <- Hfst in Hd. apply in_map_iff in Hd.
      destruct Hd as [dv [<- Hdv]]. rewrite (Hag dv Hdv).
      unfold pairs0 in Hdv. apply in_map_iff in Hdv.
      destruct Hdv as [dv' [<- _]]. reflexivity.
    + intros r Hr Hnot. rewrite <- Hfst in Hnot. rewrite <- Hl0 in Hr.
      specialize (Hfree r Hr Hnot). unfold residual in Hfree.
      rewrite Hl0, Hz in Hfree. simpl fst in Hfree. rewrite <- Hfree. ring.
Qed.

(** ** The linear solver on a well-shaped system *)

Lemma combine_rows (A : matrix) (b : vector) n :
  well_shaped A n -> length b = n ->
  length (combine A b) = n /\
  Forall (fun e : equation => length (fst e) = n) (combine A b).
Proof.
  intros [HA Hrows] Hb. split; [rewrite length_combine; lia|].
  apply Forall_forall. intros [x y] H. apply in_combine_l in H.
  rewrite Forall_forall in Hrows. apply Hrows. exact H.
Qed.

Lemma row_of_combine (A : matrix) (b : vector) n (u : vector) r :
  well_shaped A n -> length b = n -> length u = n -> (r < n)%nat ->
  let e := nth r (combine A b) ([], 0) in
  In e (combine A b) /\
  dot (fst e) u = row_dot A n r (vec u) /\ snd e = nth r b 0.
Proof.
  intros [HA Hrows] Hb Hu Hr. cbv zeta. rewrite combine_nth by lia. simpl.
  split; [|split; [|reflexivity]].
  - rewrite <- (combine_nth A b r [] 0) by lia. apply nth_In.
    rewrite length_combine. lia.
  - unfold row_dot, entry, vec. apply dot_row; [|exact Hu].
    rewrite Forall_forall in Hrows. apply Hrows, nth_In. lia.
Qed.

Lemma linear_solve_sound (S : matrix * vector) (u : vector) :
  well_shaped (fst S) (length (snd S)) ->
  linear_solve S = inr u ->
  length u = length (snd S) /\
  forall r, (r < length (snd S))%nat -> residual S (vec u) r = 0.
Proof.
  intros HS H. unfold linear_solve in H.
  destruct (gauss _ _) as [u'|] eqn:Eg; [|discriminate]. injection H as ->.
  destruct (combine_rows (fst S) (snd S) _ HS eq_refl) as [Hl Hr].
  destruct (gauss_sound _ _ _ Hl Hr Eg) as [Hu Hsat].
  split; [exact Hu|]. intros r Hrn.
  destruct (row_of_combine (fst S) (snd S) _ u r HS eq_refl Hu Hrn) as [Hin [Hd Hs]].
  rewrite Forall_forall in Hsat. specialize (Hsat _ Hin). cbv beta in Hsat.
  unfold residual. rewrite <- Hd, Hsat, Hs. ring.
Qed.

Lemma linear_solve_complete (S : matrix * vector) :
  well_shaped (fst S) (length (snd S)) ->
  (forall w : vector, length w = length (snd S) ->
     (forall r, (r < length (snd S))%nat ->
        row_dot (fst S) (length (snd S)) r (vec w) = 0) ->
     Forall (fun x => x = 0) w) ->
  exists u, linear_solve S = inr u.
Proof.
  intros HS Hker. unfold linear_solve.
  destruct (combine_rows (fst S) (snd S) _ HS eq_refl) as [Hl Hr].
  destruct (gauss_complete _ _ Hl Hr) as [u Hu].
  - intros w Hw Hz. apply Hker; [exact Hw|]. intros r Hrn.
    destruct (row_of_combine (fst S) (snd S) _ w r HS eq_refl Hw Hrn) as [Hin [Hd _]].
    rewrite Forall_forall in Hz. rewrite <- Hd. apply Hz. exact Hin.
  - rewrite Hu. eexists. reflexivity.
Qed.

(** ** The structured mesh *)

Lemma flat_map_const_length {A B} (h : A -> list B) (c : nat) (l : list A) :
  (forall x, In x l -> length (h x) = c) ->
  length (flat_map h l) = (length l * c)%nat.
Proof.
  induction l as [|x l IH]; intros H; [reflexivity|].
  simpl. rewrite length_app, IH, H; [reflexivity|left; reflexivity|].
  intros y Hy. apply H. right. exact Hy.
Qed.

Lemma grid_vertices_length nx ny :
  length (grid_vertices nx ny) = (S ny * S nx)%nat.
Proof.
  unfold grid_vertices. rewrite (flat_map_const_length _ (S nx)).
  - rewrite length_seq. reflexivity.
  - intros iy _. rewrite length_map, length_seq. reflexivity.
Qed.

Lemma grid_cells_length nx ny :
  length (grid_cells nx ny) = (ny * (nx * 2))%nat.
Proof.
  unfold grid_cells. rewrite (flat_map_const_length _ (nx * 2)%nat).
  - rewrite length_seq. reflexivity.
  - intros iy _. rewrite (flat_map_const_length _ 2%nat).
    + rewrite length_seq. reflexivity.
    + intros ix _. reflexivity.
Qed.

Lemma flat_map_const_nth {A} (h : nat -> list A) (c : nat) (d : A) :
  (forall i, length (h i) = c) ->
  forall len s i j, (i < len)%nat -> (j < c)%nat ->
  nth (i * c + j) (flat_map h (seq s len)) d = nth j (h (s + i)%nat) d.
Proof.
  intros Hc. induction len as [|len IH]; intros s i j Hi Hj; [lia|].
  simpl. destruct i as [|i].
  - rewrite app_nth1 by (rewrite Hc; lia). rewrite Nat.add_0_r. reflexivity.
  - rewrite app_nth2 by (rewrite Hc; simpl; lia).
    rewrite Hc. replace (S i * c + j - c)%nat with (i * c + j)%nat by (simpl; lia).
    rewrite IH by lia. f_equal. f_equal. lia.
Qed.

Lemma grid_vertices_nth nx ny ix iy :
  (ix <= nx)%nat -> (iy <= ny)%nat ->
  nth (vertex_index nx ix iy) (grid_vertices nx ny) (0, 0) =
  (Qc_of_nat ix / Qc_of_nat nx, Qc_of_nat iy / Qc_of_nat ny).
Proof.
  intros Hx Hy. unfold vertex_index, grid_vertices.
  rewrite (flat_map_const_nth _ (S nx)); try lia.
  - simpl "+"%nat.
    rewrite (nth_indep _ (0, 0) (Qc_of_nat 0 / Qc_of_nat nx, Qc_of_nat iy / Qc_of_nat ny))
      by (rewrite length_map, length_seq; lia).
    rewrite (map_nth (fun ix0 => (Qc_of_nat ix0 / Qc_of_nat nx, Qc_of_nat iy / Qc_of_nat ny))).
    rewrite seq_nth by lia. reflexivity.
  - intros i. rewrite length_map, length_seq. reflexivity.
Qed.

Lemma vertex_index_bound nx ny ix iy :
  (ix <= nx)%nat -> (iy <= ny)%nat ->
  (vertex_index nx ix iy < S ny * S nx)%nat.
Proof. unfold vertex_index. nia. Qed.

Lemma vertex_index_inj nx ix iy ix' iy' :
  (ix <= nx)%nat -> (ix' <= nx)%nat ->
  vertex_index nx ix iy = vertex_index nx ix' iy' -> ix = ix' /\ iy = iy'.
Proof.
  unfold vertex_index. intros Hx Hx' H.
  destruct (Nat.lt_trichotomy iy iy') as [Hlt|[Heq|Hgt]].
  - exfalso. assert (S iy * S nx <= iy' * S nx)%nat by (apply Nat.mul_le_mono_r; lia). lia.
  - subst. lia.
  - exfalso. assert (S iy' * S nx <= iy * S nx)%nat by (apply Nat.mul_le_mono_r; lia). lia.
Qed.

(** Every vertex index is the index of a grid position. *)
Lemma vertex_index_surj nx ny d :
  (d < S ny * S nx)%nat ->
  exists ix iy, (ix <= nx)%nat /\ (iy <= ny)%nat /\ d = vertex_index nx ix iy.
Proof.
  intros Hd. exists (d mod S nx)%nat, (d / S nx)%nat.
  pose proof (Nat.mod_upper_bound d (S nx) ltac:(lia)).
  pose proof (Nat.div_mod_eq d (S nx)).
  assert (d / S nx < S ny)%nat by (apply Nat.Div0.div_lt_upper_bound; lia).
  unfold vertex_index. repeat split; lia.
Qed.

Lemma Qc_of_nat_S i : Qc_of_nat (S i) = Qc_of_nat i + 1.
Proof.
  apply Qc_is_canon. unfold Qc_of_nat. qc_unfold.
  rewrite Nat2Z.inj_succ, <- Z.add_1_r, inject_Z_plus. reflexivity.
Qed.

Lemma Qc_of_nat_0 : Qc_of_nat 0 = 0.
Proof. reflexivity. Qed.

Lemma Qc_of_nat_pos i : (0 < i)%nat -> 0 < Qc_of_nat i.
Proof.
  intros H. unfold Qc_of_nat. qc_unfold. 
  change 0%Q with (inject_Z 0). rewrite <- Zlt_Qlt. lia.
Qed.

Lemma Qc_of_nat_nonzero i : (0 < i)%nat -> Qc_of_nat i <> 0.
Proof.
  intros H E. apply Qc_of_nat_pos in H. rewrite E in H. discriminate H.
Qed.

Lemma Qc_of_nat_le i j : (i <= j)%nat -> Qc_of_nat i <= Qc_of_nat j.
Proof.
  intros H. unfold Qc_of_nat. qc_unfold. rewrite <- Zle_Qle. lia.
Qed.

Lemma Qc_of_nat_lt i j : (i < j)%nat -> Qc_of_nat i < Qc_of_nat j.
Proof.
  intros H. unfold Qc_of_nat. qc_unfold. rewrite <- Zlt_Qlt. lia.
Qed.

(** ** The assembled matrix as a bilinear form *)




Lemma local_basis_three m t :
  exists i0 i1 i2 g0 g1 g2,
    t = (i0, i1, i2) /\ local_basis m t = [(i0, g0); (i1, g1); (i2, g2)].
Proof.
  destruct t as [[i0 i1] i2]. unfold local_basis, basis_gradients. simpl.
  repeat eexists.
Qed.

Lemma element_bilinear k m t w u :
  sum_over (fun e => w (fst (fst e)) * snd e * u (snd (fst e)))
           (element_stiffness k m t) =
  k * triangle_area m t * dot2 (gradient m t w) (gradient m t u).
Proof.
  unfold element_stiffness, gradient.
  destruct (local_basis_three m t) as (i0 & i1 & i2 & g0 & g1 & g2 & -> & ->).
  generalize (triangle_area m (i0, i1, i2)). intros ar.
  unfold sum_over, dot2. simpl. ring.
Qed.

Lemma element_stiffness_in_range k m t n e :
  in_range n t -> In e (element_stiffness k m t) ->
  (fst (fst e) < n)%nat /\ (snd (fst e) < n)%nat.
Proof.
  unfold element_stiffness.
  destruct (local_basis_three m t) as (i0 & i1 & i2 & g0 & g1 & g2 & -> & ->).
  intros (H0 & H1 & H2). simpl in *. 
  intros H. repeat (destruct H as [<-|H]; [simpl; lia|]). destruct H.
Qed.

Lemma stiffness_row_dot (es : list (nat * nat * Qc)) n r u :
  (r < n)%nat ->
  Forall (fun e => (snd (fst e) < n)%nat) es ->
  row_dot (fold_left scatter_add_matrix es (repeat (zeros n) n)) n r u =
  sum_over (fun e => if fst (fst e) =? r then snd e * u (snd (fst e)) else 0) es.
Proof.
  intros Hr Hes. unfold row_dot.
  rewrite (sum_over_ext _ (fun c => sum_over (fun e => hits r c e * u c) es)).
  2:{ intros c Hc. apply in_seq in Hc.
      rewrite (assembled_entry es _ n) by (try apply zero_matrix_shaped; lia).
      rewrite entry_zero, Qcplus_0_l.
      rewrite Qcmult_comm, <- sum_over_scale. apply sum_over_ext. intros; ring. }
  rewrite sum_over_swap. apply sum_over_ext. intros e He.
  rewrite Forall_forall in Hes. specialize (Hes e He).
  unfold hits.
  rewrite (sum_over_ext _ (fun c => if c =? snd (fst e) then
              (if fst (fst e) =? r then snd e * u c else 0) else 0)).
  2:{ intros c _. rewrite (Nat.eqb_sym c).
      destruct (fst (fst e) =? r), (snd (fst e) =? c); simpl; ring. }
  rewrite (sum_over_pick (fun c => if fst (fst e) =? r then snd e * u c else 0))
    by exact Hes.
  reflexivity.
Qed.

Lemma stiffness_bilinear (es : list (nat * nat * Qc)) n w u :
  Forall (fun e => (fst (fst e) < n)%nat /\ (snd (fst e) < n)%nat) es ->
  sum_over (fun r => w r *
      row_dot (fold_left scatter_add_matrix es (repeat (zeros n) n)) n r u)
    (seq 0 n) =
  sum_over (fun e => w (fst (fst e)) * snd e * u (snd (fst e))) es.
Proof.
  intros Hes.
  rewrite (sum_over_ext _ (fun r => sum_over (fun e =>
     if fst (fst e) =? r then w r * (snd e * u (snd (fst e))) else 0) es)).
  2:{ intros r Hr. apply in_seq in Hr. rewrite stiffness_row_dot; [|lia|].
      - rewrite <- sum_over_scale. apply sum_over_ext. intros e _.
        destruct (fst (fst e) =? r); ring.
      - eapply Forall_impl; [|exact Hes]. intros e [_ H]. exact H. }
  rewrite sum_over_swap. apply sum_over_ext. intros e He.
  rewrite Forall_forall in Hes. destruct (Hes e He) as [Hrow _].
  rewrite (sum_over_ext _ (fun r => if r =? fst (fst e) then
              w r * (snd e * u (snd (fst e))) else 0)).
  2:{ intros r _. rewrite (Nat.eqb_sym r). reflexivity. }
  rewrite (sum_over_pick (fun r => w r * (snd e * u (snd (fst e))))) by exact Hrow.
  ring.
Qed.

Lemma assemble_shaped k f V :
  well_shaped (fst (assemble k f V)) (dim V) /\
  length (snd (assemble k f V)) = dim V.
Proof.
  unfold assemble. simpl. split.
  - apply assembled_shaped, zero_matrix_shaped.
  - rewrite assembled_vector_length. apply repeat_length.
Qed.

Theorem assemble_bilinear k f V w u :
  Forall (in_range (dim V)) (cells (fs_mesh V)) ->
  sum_over (fun r => w r * row_dot (fst (assemble k f V)) (dim V) r u)
           (seq 0 (dim V)) =
  energy_form k (fs_mesh V) w u.
Proof.
  intros Hcells. unfold assemble. cbn [fst].
  rewrite stiffness_bilinear.
  - rewrite sum_over_flat_map. unfold energy_form. apply sum_over_ext.
    intros t _. apply element_bilinear.
  - apply Forall_forall. intros e He. apply in_flat_map in He.
    destruct He as [t [Ht He]]. rewrite Forall_forall in Hcells.
    eapply element_stiffness_in_range; [apply Hcells|]; eassumption.
Qed.

(** ** Geometry of the grid triangles *)


Lemma Qcabs_nonneg x : 0 <= x -> Qcabs x = x.
Proof.
  intros H. unfold Qcabs. apply Qle_bool_iff in H.
  change (Qle_bool 0%Q x = true) in H. rewrite H. reflexivity.
Qed.

Lemma Qcabs_opp x : 0 < x -> Qcabs (- x) = x.
Proof.
  intros H. unfold Qcabs.
  destruct (Qle_bool _ _) eqn:E.
  - exfalso. apply Qle_bool_iff in E. revert H E. qc_unfold. intros. lra.
  - ring.
Qed.

Lemma Qc_inv_sq_pos (q : Qc) : 0 < q -> 0 < 1 / (q * q).
Proof.
  qc_unfold. intros H. rewrite Qmult_1_l. apply Qinv_lt_0_compat. nra.
Qed.

Section Triangles.
Variables (a b q : Qc).
Hypothesis q_pos : 0 < q.

Let q_nonzero : q <> 0.
Proof. intros E. rewrite E in q_pos. discriminate q_pos. Qed.

Let p0 : Qc * Qc := (a / q, b / q).
Let p1 : Qc * Qc := ((a + 1) / q, b / q).
Let p2 : Qc * Qc := (a / q, (b + 1) / q).
Let p3 : Qc * Qc := ((a + 1) / q, (b + 1) / q).

Lemma lower_det : det p0 p1 p3 = 1 / (q * q).
Proof. unfold det, p0, p1, p3. simpl. field. exact q_nonzero. Qed.

Lemma upper_det : det p0 p2 p3 = - (1 / (q * q)).
Proof. unfold det, p0, p2, p3. simpl. field. exact q_nonzero. Qed.

Lemma lower_area : area p0 p1 p3 = 1 / (two * q * q).
Proof.
  unfold area. rewrite lower_det, Qcabs_nonneg.
  - unfold two. field. split; [exact q_nonzero|discriminate].
  - apply Qclt_le_weak, Qc_inv_sq_pos, q_pos.
Qed.

Lemma upper_area : area p0 p2 p3 = 1 / (two * q * q).
Proof.
  unfold area. rewrite upper_det, Qcabs_opp.
  - unfold two. field. split; [exact q_nonzero|discriminate].
  - apply Qc_inv_sq_pos, q_pos.
Qed.

Lemma lower_gradients :
  basis_gradients p0 p1 p3 = [ (- q, 0); (q, - q); (0, q) ].
Proof.
  unfold basis_gradients. rewrite lower_det. unfold p0, p1, p3. simpl.
  repeat f_equal; field; repeat split; first [exact q_nonzero | discriminate].
Qed.

Lemma upper_gradients :
  basis_gradients p0 p2 p3 = [ (0, - q); (- q, q); (q, 0) ].
Proof.
  unfold basis_gradients. rewrite upper_det. unfold p0, p2, p3. simpl.
  repeat f_equal; field; repeat split; first [exact q_nonzero | discriminate].
Qed.
End Triangles.

Section Grid.
Variable n : nat.
Hypothesis n_pos : (0 < n)%nat.

Let q : Qc := Qc_of_nat n.
Let q_pos : 0 < q := Qc_of_nat_pos n n_pos.


Lemma grid_point ix iy :
  (ix <= n)%nat -> (iy <= n)%nat ->
  point (grid n) (node n ix iy) = (Qc_of_nat ix / q, Qc_of_nat iy / q).
Proof. intros. unfold point, node. simpl. apply grid_vertices_nth; assumption. Qed.

Lemma grid_dim : vertex_count (grid n) = (S n * S n)%nat.
Proof. unfold vertex_count. simpl. apply grid_vertices_length. Qed.

Lemma node_bound ix iy :
  (ix <= n)%nat -> (iy <= n)%nat -> (node n ix iy < S n * S n)%nat.
Proof. apply vertex_index_bound. Qed.

Lemma cell_triangles_eq ix iy : cell_triangles n ix iy = [lower n ix iy; upper n ix iy].
Proof. reflexivity. Qed.

Lemma sum_over_grid_cells (g : nat * nat * nat -> Qc) :
  sum_over g (cells (grid n)) =
  sum_over (fun iy => sum_over (fun ix => g (lower n ix iy) + g (upper n ix iy))
                               (seq 0 n)) (seq 0 n).
Proof.
  simpl. unfold grid_cells. rewrite sum_over_flat_map. apply sum_over_ext.
  intros iy _. rewrite sum_over_flat_map. apply sum_over_ext. intros ix _.
  rewrite cell_triangles_eq, !sum_over_cons, sum_over_nil. ring.
Qed.

Lemma in_grid_cells t :
  In t (cells (grid n)) <->
  exists ix iy, (ix < n)%nat /\ (iy < n)%nat /\ (t = lower n ix iy \/ t = upper n ix iy).
Proof.
  simpl. unfold grid_cells. rewrite in_flat_map. split.
  - intros [iy [Hy H]]. apply in_flat_map in H. destruct H as [ix [Hx H]].
    apply in_seq in Hx, Hy. exists ix, iy. rewrite cell_triangles_eq in H.
    simpl in H. repeat split; try lia. destruct H as [<-|[<-|[]]]; auto.
  - intros (ix & iy & Hx & Hy & H). exists iy. split; [apply in_seq; lia|].
    apply in_flat_map. exists ix. split; [apply in_seq; lia|].
    rewrite cell_triangles_eq. simpl. destruct H as [->| ->]; auto.
Qed.

Lemma grid_cells_in_range : Forall (in_range (S n * S n)) (cells (grid n)).
Proof.
  apply Forall_forall. intros t Ht. apply in_grid_cells in Ht.
  destruct Ht as (ix & iy & Hx & Hy & [->| ->]); unfold in_range, lower, upper;
    simpl; repeat split; apply node_bound; lia.
Qed.

Lemma lower_triangle_area ix iy :
  (ix < n)%nat -> (iy < n)%nat ->
  triangle_area (grid n) (lower n ix iy) = 1 / (two * q * q).
Proof.
  intros Hx Hy. unfold triangle_area, lower.
  rewrite !grid_point by lia. rewrite !Qc_of_nat_S. apply lower_area, q_pos.
Qed.

Lemma upper_triangle_area ix iy :
  (ix < n)%nat -> (iy < n)%nat ->
  triangle_area (grid n) (upper n ix iy) = 1 / (two * q * q).
Proof.
  intros Hx Hy. unfold triangle_area, upper.
  rewrite !grid_point by lia. rewrite !Qc_of_nat_S. apply upper_area, q_pos.
Qed.

Lemma lower_local_basis ix iy :
  (ix < n)%nat -> (iy < n)%nat ->
  local_basis (grid n) (lower n ix iy) =
  [ (node n ix iy, (- q, 0)); (node n (S ix) iy, (q, - q));
    (node n (S ix) (S iy), (0, q)) ].
Proof.
  intros Hx Hy. unfold local_basis, lower.
  rewrite !grid_point by lia. rewrite !Qc_of_nat_S.
  rewrite lower_gradients by exact q_pos. reflexivity.
Qed.

Lemma upper_local_basis ix iy :
  (ix < n)%nat -> (iy < n)%nat ->
  local_basis (grid n) (upper n ix iy) =
  [ (node n ix iy, (0, - q)); (node n ix (S iy), (- q, q));
    (node n (S ix) (S iy), (q, 0)) ].
Proof.
  intros Hx Hy. unfold local_basis, upper.
  rewrite !grid_point by lia. rewrite !Qc_of_nat_S.
  rewrite upper_gradients by exact q_pos. reflexivity.
Qed.

Lemma lower_gradient ix iy u :
  (ix < n)%nat -> (iy < n)%nat ->
  gradient (grid n) (lower n ix iy) u =
  (q * (u (node n (S ix) iy) - u (node n ix iy)),
   q * (u (node n (S ix) (S iy)) - u (node n (S ix) iy))).
Proof.
  intros Hx Hy. unfold gradient. rewrite lower_local_basis by assumption.
  unfold sum_over. simpl. f_equal; ring.
Qed.

Lemma upper_gradient ix iy u :
  (ix < n)%nat -> (iy < n)%nat ->
  gradient (grid n) (upper n ix iy) u =
  (q * (u (node n (S ix) (S iy)) - u (node n ix (S iy))),
   q * (u (node n ix (S iy)) - u (node n ix iy))).
Proof.
  intros Hx Hy. unfold gradient. rewrite upper_local_basis by assumption.
  unfold sum_over. simpl. f_equal; ring.
Qed.

Lemma grid_not_degenerate : existsb (degenerate (grid n)) (cells (grid n)) = false.
Proof.
  apply not_true_is_false. intros H. apply existsb_exists in H.
  destruct H as [t [Ht Hd]]. apply in_grid_cells in Ht.
  destruct Ht as (ix & iy & Hx & Hy & [->| ->]); unfold degenerate, lower, upper in Hd;
    rewrite !grid_point, !Qc_of_nat_S in Hd by lia; apply Qceqb_eq in Hd.
  - rewrite lower_det in Hd by exact q_pos.
    pose proof (Qc_inv_sq_pos q q_pos) as Hp. rewrite Hd in Hp. discriminate Hp.
  - rewrite upper_det in Hd by exact q_pos.
    pose proof (Qc_inv_sq_pos q q_pos) as Hp.
    assert (E : 1 / (q * q) = 0) by (transitivity (- - (1 / (q * q))); [ring|rewrite Hd; ring]).
    rewrite E in Hp. discriminate Hp.
Qed.
End Grid.

(** ** Energy: a function whose energy vanishes is constant along rows *)

Lemma Qc_scaled_norm_zero (c x y : Qc) :
  0 < c -> c * (x * x + y * y) = 0 -> x = 0 /\ y = 0.
Proof.
  rewrite !Qc_eq_iff. qc_unfold. intros Hc H. simpl.
  assert (Hs : (this x * this x + this y * this y == 0)%Q) by nra.
  split; nra.
Qed.

Lemma Qc_scaled_norm_nonneg (c x y : Qc) : 0 < c -> 0 <= c * (x * x + y * y).
Proof. qc_unfold. intros Hc. nra. Qed.

Lemma Qc_mult_pos (x y : Qc) : 0 < x -> 0 < y -> 0 < x * y.
Proof. qc_unfold. intros. nra. Qed.

Lemma Qc_half_inv_sq_pos (q : Qc) : 0 < q -> 0 < 1 / (two * q * q).
Proof.
  intros Hq. replace (1 / (two * q * q)) with ((1 / two) * (1 / (q * q))).
  - apply Qc_mult_pos; [reflexivity|apply Qc_inv_sq_pos, Hq].
  - unfold two. field. split; [|discriminate].
    intros E. rewrite E in Hq. discriminate Hq.
Qed.

Lemma Qc_mult_cancel (q x y : Qc) : 0 < q -> q * (x - y) = 0 -> x = y.
Proof.
  rewrite !Qc_eq_iff. qc_unfold. intros Hq H. nra.
Qed.

Section Energy.
Variable n : nat.
Hypothesis n_pos : (0 < n)%nat.
Variable k : Qc.
Hypothesis k_pos : 0 < k.
Variable w : nat -> Qc.
Hypothesis energy_zero : energy_form k (grid n) w w = 0.

Let q : Qc := Qc_of_nat n.
Let q_pos : 0 < q := Qc_of_nat_pos n n_pos.

Lemma triangle_area_grid t :
  In t (cells (grid n)) -> triangle_area (grid n) t = 1 / (two * q * q).
Proof.
  intros Ht. apply (in_grid_cells n n_pos) in Ht.
  destruct Ht as (ix & iy & Hx & Hy & [->| ->]).
  - apply lower_triangle_area; assumption.
  - apply upper_triangle_area; assumption.
Qed.

Lemma gradient_zero t :
  In t (cells (grid n)) -> gradient (grid n) t w = (0, 0).
Proof.
  intros Ht.
  assert (Hc : 0 < k * (1 / (two * q * q)))
    by (apply Qc_mult_pos; [exact k_pos|apply Qc_half_inv_sq_pos, q_pos]).
  pose proof (sum_over_zero_terms
    (fun t => k * triangle_area (grid n) t *
              dot2 (gradient (grid n) t w) (gradient (grid n) t w))
    (cells (grid n))) as H.
  specialize (H ltac:(intros t' Ht'; cbv beta; rewrite (triangle_area_grid t' Ht');
                      apply Qc_scaled_norm_nonneg, Hc) energy_zero t Ht).
  cbv beta in H. rewrite (triangle_area_grid t Ht) in H.
  apply Qc_scaled_norm_zero in H; [|exact Hc].
  destruct (gradient (grid n) t w) as [gx gy]. simpl in H.
  destruct H as [-> ->]. reflexivity.
Qed.

Lemma cell_edges_level ix iy :
  (ix < n)%nat -> (iy < n)%nat ->
  w (node n (S ix) iy) = w (node n ix iy) /\
  w (node n (S ix) (S iy)) = w (node n ix (S iy)).
Proof.
  intros Hx Hy. split.
  - assert (Hin : In (lower n ix iy) (cells (grid n))).
    { apply (in_grid_cells n n_pos). exists ix, iy. repeat split; try lia. left. reflexivity. }
    pose proof (gradient_zero _ Hin) as H.
    rewrite lower_gradient in H by (assumption || lia). apply (f_equal fst) in H. cbn [fst] in H.
    apply (Qc_mult_cancel q); [exact q_pos|exact H].
  - assert (Hin : In (upper n ix iy) (cells (grid n))).
    { apply (in_grid_cells n n_pos). exists ix, iy. repeat split; try lia. right. reflexivity. }
    pose proof (gradient_zero _ Hin) as H.
    rewrite upper_gradient in H by (assumption || lia). apply (f_equal fst) in H. cbn [fst] in H.
    apply (Qc_mult_cancel q); [exact q_pos|exact H].
Qed.

Lemma step_right ix iy :
  (ix < n)%nat -> (iy <= n)%nat -> w (node n (S ix) iy) = w (node n ix iy).
Proof.
  intros Hx Hy. destruct iy as [|iy].
  - apply cell_edges_level; lia.
  - apply cell_edges_level; lia.
Qed.

Lemma constant_along_rows ix iy :
  (ix <= n)%nat -> (iy <= n)%nat -> w (node n ix iy) = w (node n 0 iy).
Proof.
  intros Hx Hy. induction ix as [|ix IH]; [reflexivity|].
  rewrite step_right by lia. apply IH. lia.
Qed.
End Energy.

Section FacadeFacts.
Context {R : Type} {PF : PyFloat R} (D : Dolfin R).


Lemma validate_parameters_spec (s : Solver D) :
  _validate_parameters s =
  (s, if leb (k (params s)) zero then inl (ValueError conductivity_message)
      else if (mesh_resolution (params s) <? 4)%Z
           then inl (ValueError resolution_message)
           else inr tt).
Proof.
  unfold _validate_parameters, bind, get, raise, ret. simpl.
  destruct (leb _ _); [reflexivity|]. destruct (_ <? _)%Z; reflexivity.
Qed.

Lemma solve_invalid (s : Solver D) :
  leb (k (params s)) zero = true \/ (mesh_resolution (params s) < 4)%Z ->
  exists msg, solve s = (s, inl (ValueError msg)).
Proof.
  intros H. unfold solve, bind at 1. rewrite validate_parameters_spec.
  destruct (leb _ _) eqn:E1; [eexists; reflexivity|].
  destruct H as [H|H]; [discriminate|].
  apply Z.ltb_lt in H. rewrite H. eexists; reflexivity.
Qed.




(** What [_setup_problem] does on an instance that has a mesh. *)
Lemma setup_problem_spec (s : Solver D) (m : Mesh D) :
  mesh s = Some m ->
  _setup_problem s =
  let p := params s in
  match FunctionSpace_P1 D m with
  | inl e => (s, inl (Raised e))
  | inr v =>
      if eqb (k p) zero || eqb (f p) zero
      then (set_V v s, inl (Raised (UFLException D missing_domain)))
      else (set_L (form_L D p v) (set_a (form_a D p v) (set_V v s)), inr tt)
  end.
Proof.
  intros Hm. unfold _setup_problem, bind at 1. unfold get at 1. rewrite Hm.
  unfold bind, call, modify, get, integral, times_dx, times, ret, raise.
  cbv zeta. destruct (FunctionSpace_P1 D m) as [e|v]; [reflexivity|].
  cbn [params set_V spaces app].
  destruct (eqb (k (params s)) zero); [reflexivity|].
  destruct (eqb (f (params s)) zero); reflexivity.
Qed.

Lemma solve_spec (s : Solver D) :
  solve s =
  let p := params s in
  if leb (k p) zero then (s, inl (ValueError conductivity_message))
  else if (mesh_resolution p <? 4)%Z then (s, inl (ValueError resolution_message))
  else match UnitSquareMesh D (mesh_resolution p) (mesh_resolution p) with
       | inl e => (s, inl (Raised e))
       | inr m =>
           match FunctionSpace_P1 D m with
           | inl e => (set_mesh m s, inl (Raised e))
           | inr v =>
               if eqb (k p) zero || eqb (f p) zero
               then (set_V v (set_mesh m s),
                     inl (Raised (UFLException D missing_domain)))
               else
               match dolfin_solve D (form_a D p v) (form_L D p v) (new_Function D v)
                                  (conditions D p v) with
               | inl e => (constrained D m v s, inl (Raised e))
               | inr u => (set_solution u (constrained D m v s), inr (Some m, Some u))
               end
           end
       end.
Proof.
  unfold solve, bind at 1. rewrite validate_parameters_spec. cbv zeta.
  destruct (leb _ _); [reflexivity|]. destruct (_ <? _)%Z; [reflexivity|].
  unfold bind at 1. unfold _create_mesh, bind at 1. unfold get at 1.
  unfold bind at 1. unfold call at 1.
  destruct (UnitSquareMesh D _ _) as [e|m]; [reflexivity|].
  unfold modify at 1. unfold bind at 1.
  rewrite (setup_problem_spec (set_mesh m s) m eq_refl). cbv zeta.
  cbn [params set_mesh].
  destruct (FunctionSpace_P1 D m) as [e|v]; [reflexivity|].
  destruct (eqb (k (params s)) zero || eqb (f (params s)) zero); [reflexivity|].
  unfold _apply_boundary_conditions, _solve_system,
    bind, get, getattr, call, modify, ret, raise. simpl.
  unfold form_a, form_L, conditions.
  destruct (dolfin_solve D _ _ _ _); reflexivity.
Qed.

Lemma solve_again (s s' : Solver D) r :
  solve s = (s', inr r) -> solve s' = (s', inr r).
Proof.
  rewrite solve_spec. cbv zeta.
  destruct (leb _ _) eqn:E1; [discriminate|].
  destruct (_ <? _)%Z eqn:E2; [discriminate|].
  destruct (UnitSquareMesh D _ _) as [e|m] eqn:E3; [discriminate|].
  destruct (FunctionSpace_P1 D m) as [e|v] eqn:E4; [discriminate|].
  destruct (eqb _ _ || eqb _ _) eqn:E0; [discriminate|].
  destruct (dolfin_solve D _ _ _ _) as [e|u] eqn:E5; [discriminate|].
  intros H. injection H as <- <-.
  rewrite solve_spec. cbv zeta. simpl. rewrite E1, E2, E3, E4, E0, E5.
  reflexivity.
Qed.


Lemma run_matches_solve (s : Solver D) :
  let '(s', r, trace) := run 5%nat Unvalidated s in
  s' = fst (solve s) /\
  (match snd (solve s) with inl e => r = inl e | inr _ => r = inr tt end) /\
  exists j, trace = firstn (S j) all_stages /\
            (j = 5%nat <-> exists x, snd (solve s) = inr x).
Proof.
  unfold solve, bind. simpl.
  destruct (_validate_parameters s) as [s1 [e|[]]].
  { simpl. repeat split. exists 0%nat. split; [reflexivity|].
    split; [discriminate|intros [x Hx]; discriminate]. }
  destruct (_create_mesh s1) as [s2 [e|[]]].
  { simpl. repeat split. exists 1%nat. split; [reflexivity|].
    split; [discriminate|intros [x Hx]; discriminate]. }
  destruct (_setup_problem s2) as [s3 [e|[]]].
  { simpl. repeat split. exists 2%nat. split; [reflexivity|].
    split; [discriminate|intros [x Hx]; discriminate]. }
  destruct (_apply_boundary_conditions s3) as [s4 [e|[]]].
  { simpl. repeat split. exists 3%nat. split; [reflexivity|].
    split; [discriminate|intros [x Hx]; discriminate]. }
  destruct (_solve_system s4) as [s5 [e|[]]].
  { simpl. repeat split. exists 4%nat. split; [reflexivity|].
    split; [discriminate|intros [x Hx]; discriminate]. }
  simpl. repeat split. exists 5%nat. split; [reflexivity|].
  split; [intros _; eexists; reflexivity|reflexivity].
Qed.
End FacadeFacts.

(** ** Which DOFs the edge conditions select *)

Lemma Qcabs_bounds (x : Qc) : x <= Qcabs x /\ - x <= Qcabs x.
Proof.
  unfold Qcabs. destruct (Qle_bool _ _) eqn:E.
  - apply Qle_bool_iff in E. revert E. qc_unfold. intros. split; lra.
  - assert (H : ~ (0 <= this x)%Q) by (rewrite <- Qle_bool_iff, E; discriminate).
    revert H. qc_unfold. intros. split; lra.
Qed.

Lemma near_self (tol x : Qc) : 0 <= tol -> Qcleb (Qcabs (x - x)) tol = true.
Proof.
  intros H. replace (x - x) with 0 by ring. apply Qcleb_le. exact H.
Qed.

Lemma near_far (tol x x0 q : Qc) :
  0 < q -> tol * q < 1 ->
  1 <= (x - x0) * q \/ 1 <= (x0 - x) * q ->
  Qcleb (Qcabs (x - x0)) tol = false.
Proof.
  intros Hq Ht Hfar. apply not_true_is_false. intros H. apply Qcleb_le in H.
  destruct (Qcabs_bounds (x - x0)) as [H1 H2].
  generalize dependent (Qcabs (x - x0)). intros y H H1 H2.
  revert Hq Ht Hfar H H1 H2. qc_unfold. intros. destruct Hfar; nra.
Qed.

Lemma Qc_succ_le_gap (y z : Qc) : y + 1 <= z -> 1 <= z - y.
Proof. qc_unfold. intros. lra. Qed.

Section Selection.
Variable n : nat.
Hypothesis n_pos : (0 < n)%nat.
Variable tol : Qc.
Hypothesis tol_nonneg : 0 <= tol.

Let q : Qc := Qc_of_nat n.
Let q_pos : 0 < q := Qc_of_nat_pos n n_pos.
Let V : function_space := {| fs_mesh := grid n |}.


Lemma q_nonzero : q <> 0.
Proof. intros E. pose proof q_pos as H. rewrite E in H. discriminate H. Qed.

Lemma selects_left_edge v iy :
  (iy <= n)%nat -> selects V (left_bc n tol v) (node n 0 iy) = true.
Proof.
  intros Hy. unfold selects. change (fs_mesh V) with (grid n).
  rewrite grid_point by lia. simpl.
  replace (Qc_of_nat 0 / Qc_of_nat n) with 0 by (unfold Qcdiv; rewrite Qc_of_nat_0; ring).
  replace (0 - 0) with 0 by ring. apply Qcleb_le in tol_nonneg.
  unfold Qcabs. simpl. exact tol_nonneg.
Qed.

Lemma selects_right_edge v iy :
  (iy <= n)%nat -> selects V (right_bc n tol v) (node n n iy) = true.
Proof.
  intros Hy. unfold selects. change (fs_mesh V) with (grid n).
  rewrite grid_point by lia. cbn [inside bc_domain right_bc RightBoundary fst near dolfin one Qc_PyFloat].
  replace (Qc_of_nat n / Qc_of_nat n) with 1 by (field; exact q_nonzero).
  rewrite near_self by exact tol_nonneg. rewrite andb_true_r.
  unfold on_boundary. cbn [fst snd]. replace (Qceqb 1 1) with true by reflexivity.
  rewrite orb_true_r. reflexivity.
Qed.

Hypothesis tol_fine : tol * q < 1.

Lemma selects_left v ix iy :
  (ix <= n)%nat -> (iy <= n)%nat ->
  selects V (left_bc n tol v) (node n ix iy) = (ix =? 0).
Proof.
  intros Hx Hy. destruct ix as [|ix]; [apply selects_left_edge; exact Hy|].
  unfold selects. change (fs_mesh V) with (grid n).
  rewrite grid_point by lia. cbn [inside bc_domain left_bc LeftBoundary fst near dolfin zero Qc_PyFloat].
  rewrite (near_far tol _ 0 q q_pos tol_fine); [apply andb_false_r|].
  left.
  assert (E : (Qc_of_nat (S ix) / Qc_of_nat n - 0) * q = Qc_of_nat (S ix))
    by (unfold q; field; exact q_nonzero).
  rewrite E. change 1 with (Qc_of_nat 1). apply Qc_of_nat_le. lia.
Qed.

Lemma selects_right v ix iy :
  (ix <= n)%nat -> (iy <= n)%nat ->
  selects V (right_bc n tol v) (node n ix iy) = (ix =? n).
Proof.
  intros Hx Hy. destruct (Nat.eqb_spec ix n) as [->|Hne];
    [apply selects_right_edge; exact Hy|].
  unfold selects. change (fs_mesh V) with (grid n).
  rewrite grid_point by lia. cbn [inside bc_domain right_bc RightBoundary fst near dolfin one Qc_PyFloat].
  rewrite (near_far tol _ 1 q q_pos tol_fine); [apply andb_false_r|].
  right.
  assert (E : (1 - Qc_of_nat ix / Qc_of_nat n) * q = q - Qc_of_nat ix)
    by (unfold q; field; exact q_nonzero).
  rewrite E.
  assert (H : Qc_of_nat (S ix) <= q) by (apply Qc_of_nat_le; lia).
  rewrite Qc_of_nat_S in H. apply Qc_succ_le_gap. exact H.
Qed.
End Selection.

(** ** The set of prescribed values *)

Lemma bc_set_in V bcs d v :
  In (d, v) (bc_set V bcs) <-> (d < dim V)%nat /\ prescribed V bcs d = Some v.
Proof.
  unfold bc_set. rewrite in_flat_map. split.
  - intros [d' [Hd' H]]. apply in_seq in Hd'.
    destruct (prescribed V bcs d') as [v'|] eqn:E; [|destruct H].
    destruct H as [H|[]]. injection H as <- <-. split; [lia|exact E].
  - intros [Hd E]. exists d. split; [apply in_seq; lia|]. rewrite E. left. reflexivity.
Qed.

Lemma bc_set_range V bcs dv : In dv (bc_set V bcs) -> (fst dv < dim V)%nat.
Proof. destruct dv as [d v]. intros H. apply bc_set_in in H. apply H. Qed.

Lemma flat_map_option_NoDup (g : nat -> option Qc) (l : list nat) :
  NoDup l ->
  NoDup (map fst (flat_map (fun d => match g d with
                                     | Some v => [(d, v)]
                                     | None => []
                                     end) l)) /\
  forall x, In x (map fst (flat_map (fun d => match g d with
                                     | Some v => [(d, v)]
                                     | None => []
                                     end) l)) -> In x l.
Proof.
  induction l as [|d l IH]; intros Hnd.
  - split; [constructor|intros x []].
  - inversion Hnd as [|? ? Hd Hl]; subst. destruct (IH Hl) as [IH1 IH2].
    simpl. destruct (g d) as [v|]; simpl.
    + split.
      * constructor; [|exact IH1]. intros H. apply Hd, IH2, H.
      * intros x [<-|H]; [left; reflexivity|right; apply IH2, H].
    + split; [exact IH1|]. intros x H. right. apply IH2, H.
Qed.

Lemma bc_set_NoDup V bcs : NoDup (map fst (bc_set V bcs)).
Proof. apply flat_map_option_NoDup, seq_NoDup. Qed.

Lemma prescribed_two V b1 b2 d :
  prescribed V [b1; b2] d =
  if selects V b2 d then Some (bc_value b2)
  else if selects V b1 d then Some (bc_value b1) else None.
Proof. reflexivity. Qed.

(** ** The constrained system has a trivial kernel *)

Section Kernel.
Variable n : nat.
Hypothesis n_pos : (0 < n)%nat.
Variables tol k f lt rt : Qc.
Hypothesis tol_nonneg : 0 <= tol.
Hypothesis k_pos : 0 < k.

Let V : function_space := {| fs_mesh := grid n |}.
Let bcs := [left_bc n tol lt; right_bc n tol rt].
Let N : nat := dim V.
Let S0 : matrix * vector := assemble k f V.
Let S1 : matrix * vector := enforce S0 (bc_set V bcs).

Lemma N_eq : N = (S n * S n)%nat.
Proof. apply grid_dim. Qed.

Lemma S0_length : length (snd S0) = N.
Proof. apply assemble_shaped. Qed.

Lemma S1_length : length (snd S1) = N.
Proof. unfold S1. rewrite enforce_length. apply S0_length. Qed.

Lemma S1_shaped : well_shaped (fst S1) N.
Proof.
  unfold S1. rewrite <- S0_length. apply enforce_shaped. rewrite S0_length.
  apply assemble_shaped.
Qed.

Lemma left_edge_prescribed iy :
  (iy <= n)%nat -> In (node n 0 iy) (map fst (bc_set V bcs)).
Proof.
  intros Hy.
  assert (H : exists v, prescribed V bcs (node n 0 iy) = Some v).
  { unfold bcs. rewrite prescribed_two.
    destruct (selects V (right_bc n tol rt) _); [eexists; reflexivity|].
    unfold V. rewrite selects_left_edge by assumption. eexists; reflexivity. }
  destruct H as [v Hv]. apply in_map_iff. exists (node n 0 iy, v). split; [reflexivity|].
  apply bc_set_in. split; [|exact Hv]. change (dim V) with N. rewrite N_eq.
  apply node_bound; lia.
Qed.

Lemma free_energy (w u : nat -> Qc) :
  (forall d, In d (map fst (bc_set V bcs)) -> w d = 0) ->
  (forall r, (r < N)%nat -> ~ In r (map fst (bc_set V bcs)) ->
     row_dot (fst S0) N r u = 0) ->
  energy_form k (grid n) w u = 0.
Proof.
  intros Hw Hu.
  change (grid n) with (fs_mesh V).
  rewrite <- (assemble_bilinear k f V w u).
  - rewrite (sum_over_ext _ (fun _ => 0)); [apply sum_over_zero|].
    intros r Hr. apply in_seq in Hr.
    destruct (in_dec Nat.eq_dec r (map fst (bc_set V bcs))) as [Hin|Hout].
    + rewrite (Hw r Hin). ring.
    + change (fst (assemble k f V)) with (fst S0). change (dim V) with N.
      rewrite (Hu r) by (assumption || (unfold N; lia)). ring.
  - change (dim V) with N. rewrite N_eq. change (fs_mesh V) with (grid n).
    apply grid_cells_in_range, n_pos.
Qed.

Lemma vanishes_everywhere (w : nat -> Qc) :
  (forall d, In d (map fst (bc_set V bcs)) -> w d = 0) ->
  energy_form k (grid n) w w = 0 ->
  forall d, (d < N)%nat -> w d = 0.
Proof.
  intros Hw He d Hd. rewrite N_eq in Hd.
  destruct (vertex_index_surj n n d Hd) as (ix & iy & Hx & Hy & ->).
  change (vertex_index n ix iy) with (node n ix iy).
  rewrite (constant_along_rows n n_pos k k_pos w He ix iy Hx Hy).
  apply Hw, left_edge_prescribed, Hy.
Qed.

Theorem constrained_kernel_trivial (w : vector) :
  length w = N ->
  (forall r, (r < N)%nat -> row_dot (fst S1) N r (vec w) = 0) ->
  Forall (fun x => x = 0) w.
Proof.
  intros Hlen Hrows.
  destruct (enforce_kernel (bc_set V bcs) (fst S0) (snd S0) (vec w)) as [Hd Hfree].
  - apply bc_set_NoDup.
  - intros dv Hdv. rewrite S0_length. apply (bc_set_range V bcs). exact Hdv.
  - rewrite S0_length. rewrite <- surjective_pairing. exact Hrows.
  - rewrite S0_length in Hfree.
    assert (He : energy_form k (grid n) (vec w) (vec w) = 0)
      by (apply free_energy; assumption).
    apply Forall_forall. intros x Hx. apply (In_nth _ _ 0) in Hx.
    destruct Hx as [i [Hi <-]]. apply (vanishes_everywhere (vec w) Hd He).
    rewrite <- Hlen. exact Hi.
Qed.
End Kernel.

(** ** The reference solve on the grid *)

Lemma gradient_minus m t (u v : nat -> Qc) :
  gradient m t (fun d => u d - v d) =
  (fst (gradient m t u) - fst (gradient m t v),
   snd (gradient m t u) - snd (gradient m t v)).
Proof.
  unfold gradient. cbn [fst snd]. rewrite <- !sum_over_minus.
  f_equal; apply sum_over_ext; intros; ring.
Qed.

Lemma energy_form_minus k m w (u v : nat -> Qc) :
  energy_form k m w (fun d => u d - v d) =
  energy_form k m w u - energy_form k m w v.
Proof.
  unfold energy_form. rewrite <- sum_over_minus. apply sum_over_ext.
  intros t _. rewrite gradient_minus. unfold dot2. cbn [fst snd]. ring.
Qed.

Lemma Qc_minus_eq (x y : Qc) : x - y = 0 -> x = y.
Proof. intros H. transitivity (x - y + y); [ring|rewrite H; ring]. Qed.

Section ReferenceSolve.
Variable n : nat.
Hypothesis n_pos : (0 < n)%nat.
Variables tol k f lt rt : Qc.
Hypothesis tol_nonneg : 0 <= tol.
Hypothesis k_pos : 0 < k.

Let V : function_space := {| fs_mesh := grid n |}.
Let bcs := [left_bc n tol lt; right_bc n tol rt].
Let N : nat := dim V.
Let S0 : matrix * vector := assemble k f V.
Let q : Qc := Qc_of_nat n.

(** The solve succeeds; its result has one value per vertex, takes the
    prescribed values, and satisfies the assembled equations at the free
    DOFs. *)
Theorem reference_solve :
  exists x : vector,
    linear_solve (enforce S0 (bc_set V bcs)) = inr x /\
    length x = N /\
    (forall d v, In (d, v) (bc_set V bcs) -> vec x d = v) /\
    (forall r, (r < N)%nat -> ~ In r (map fst (bc_set V bcs)) ->
       row_dot (fst S0) N r (vec x) = nth r (snd S0) 0).
Proof.
  pose proof (S1_length n tol k f lt rt) as Hl1.
  pose proof (S1_shaped n tol k f lt rt) as Hs1.
  pose proof (S0_length n k f) as Hl0.
  cbv zeta in Hl1, Hs1, Hl0.
  destruct (linear_solve_complete (enforce S0 (bc_set V bcs))) as [x Hx].
  - unfold S0, V, bcs. rewrite Hl1. exact Hs1.
  - unfold S0, V, bcs. rewrite Hl1. intros w Hw Hrows.
    apply (constrained_kernel_trivial n n_pos tol k f lt rt tol_nonneg k_pos w Hw Hrows).
  - exists x. split; [exact Hx|].
    destruct (linear_solve_sound (enforce S0 (bc_set V bcs)) x) as [Hlen Hres]; [|exact Hx|].
    { unfold S0, V, bcs. rewrite Hl1. exact Hs1. }
    unfold S0, V, bcs in Hlen, Hres. rewrite Hl1 in Hlen, Hres.
    split; [exact Hlen|].
    destruct (enforce_solved (bc_set V bcs) S0 (vec x)) as [Hag Hfree].
    + apply bc_set_NoDup.
    + intros dv Hdv. unfold S0, V. rewrite Hl0. apply (bc_set_range V bcs), Hdv.
    + unfold S0, V. rewrite Hl0. exact Hres.
    + split.
      * intros d v Hdv. apply (Hag (d, v) Hdv).
      * intros r Hr Hnot. unfold S0, V in Hfree. rewrite Hl0 in Hfree.
        specialize (Hfree r Hr Hnot). unfold residual in Hfree.
        rewrite Hl0 in Hfree.
        apply Qc_minus_eq. exact Hfree.
Qed.
End ReferenceSolve.

(** ** A tolerance finer than the mesh spacing *)

Section Fine.
Variable n : nat.
Hypothesis n_pos : (0 < n)%nat.
Variables tol k lt rt : Qc.
Hypothesis tol_nonneg : 0 <= tol.
Hypothesis tol_fine : tol * Qc_of_nat n < 1.
Hypothesis k_pos : 0 < k.

Let V : function_space := {| fs_mesh := grid n |}.
Let bcs := [left_bc n tol lt; right_bc n tol rt].
Let N : nat := dim V.
Let q : Qc := Qc_of_nat n.
Let q_pos : 0 < q := Qc_of_nat_pos n n_pos.

Lemma near_left_iff ix :
  (ix <= n)%nat ->
  near (dolfin tol) (Qc_of_nat ix / q) 0 = (ix =? 0).
Proof.
  intros Hx. cbn [near dolfin]. destruct ix as [|ix].
  - replace (Qc_of_nat 0 / q - 0) with (0 - 0)
      by (unfold Qcdiv; rewrite Qc_of_nat_0; ring).
    apply near_self, tol_nonneg.
  - apply (near_far tol _ 0 q q_pos tol_fine). left.
    assert (E : (Qc_of_nat (S ix) / q - 0) * q = Qc_of_nat (S ix))
      by (field; apply (q_nonzero n n_pos)).
    rewrite E. change 1 with (Qc_of_nat 1). apply Qc_of_nat_le. lia.
Qed.

Lemma near_right_iff ix :
  (ix <= n)%nat ->
  near (dolfin tol) (Qc_of_nat ix / q) 1 = (ix =? n).
Proof.
  intros Hx. cbn [near dolfin]. destruct (Nat.eqb_spec ix n) as [->|Hne].
  - replace (Qc_of_nat n / q) with 1 by (unfold q; field; apply (q_nonzero n n_pos)).
    apply near_self, tol_nonneg.
  - apply (near_far tol _ 1 q q_pos tol_fine). right.
    assert (E : (1 - Qc_of_nat ix / q) * q = q - Qc_of_nat ix)
      by (field; apply (q_nonzero n n_pos)).
    rewrite E.
    assert (H : Qc_of_nat (S ix) <= q) by (apply Qc_of_nat_le; lia).
    rewrite Qc_of_nat_S in H. apply Qc_succ_le_gap. exact H.
Qed.

Lemma prescribed_fine ix iy :
  (ix <= n)%nat -> (iy <= n)%nat ->
  prescribed V bcs (node n ix iy) =
  if ix =? n then Some rt else if ix =? 0 then Some lt else None.
Proof.
  intros Hx Hy. unfold bcs. rewrite prescribed_two. unfold V.
  rewrite selects_right, selects_left by assumption. reflexivity.
Qed.

Lemma prescribed_left iy :
  (iy <= n)%nat -> In (node n 0 iy, lt) (bc_set V bcs).
Proof.
  intros Hy. apply bc_set_in. split.
  - change (dim V) with (vertex_count (grid n)). rewrite grid_dim.
    apply node_bound; lia.
  - rewrite prescribed_fine by lia. destruct (Nat.eqb_spec 0 n); [lia|reflexivity].
Qed.

Lemma prescribed_right iy :
  (iy <= n)%nat -> In (node n n iy, rt) (bc_set V bcs).
Proof.
  intros Hy. apply bc_set_in. split.
  - change (dim V) with (vertex_count (grid n)). rewrite grid_dim.
    apply node_bound; lia.
  - rewrite prescribed_fine by lia. rewrite Nat.eqb_refl. reflexivity.
Qed.

Lemma prescribed_only d :
  In d (map fst (bc_set V bcs)) ->
  exists ix iy, (ix <= n)%nat /\ (iy <= n)%nat /\ d = node n ix iy /\
                (ix = 0%nat \/ ix = n).
Proof.
  intros H. apply in_map_iff in H. destruct H as [[d' v] [<- H]].
  apply bc_set_in in H. destruct H as [Hd Hp]. cbn [fst].
  change (dim V) with (vertex_count (grid n)) in Hd. rewrite grid_dim in Hd.
  destruct (vertex_index_surj n n d' Hd) as (ix & iy & Hx & Hy & ->).
  exists ix, iy. repeat split; try assumption.
  change (vertex_index n ix iy) with (node n ix iy) in Hp.
  rewrite prescribed_fine in Hp by assumption.
  destruct (Nat.eqb_spec ix n); [right; assumption|].
  destruct (Nat.eqb_spec ix 0); [left; assumption|discriminate].
Qed.
End Fine.

(** ** The facade over the reference pipeline *)

Lemma unit_square_mesh_grid (n : Z) :
  (1 <= n)%Z -> unit_square_mesh n n = inr (grid (Z.to_nat n)).
Proof.
  intros H. unfold unit_square_mesh.
  destruct (Z.ltb_spec n 1); [lia|]. reflexivity.
Qed.

Lemma P1_grid (n : nat) :
  (0 < n)%nat -> P1 (grid n) = inr {| fs_mesh := grid n |}.
Proof. intros H. unfold P1. rewrite grid_not_degenerate by exact H. reflexivity. Qed.

Lemma leb_positive (x : Qc) : 0 < x -> leb x zero = false.
Proof.
  intros H. apply not_true_is_false. intros E.
  cbn [leb zero Qc_PyFloat] in E.
  apply Qle_bool_iff in E. revert H E. qc_unfold. intros. lra.
Qed.

Lemma eqb_positive (x : Qc) : 0 < x -> eqb x zero = false.
Proof.
  intros H. apply not_true_is_false. intros E.
  cbn [eqb zero Qc_PyFloat] in E.
  apply Qeq_bool_iff in E. revert H E. qc_unfold. intros. lra.
Qed.

Lemma eqb_nonzero (x : Qc) : x <> 0 -> eqb x zero = false.
Proof.
  intros H. apply not_true_is_false. intros E. apply H.
  cbn [eqb zero Qc_PyFloat] in E. apply Qceqb_eq. exact E.
Qed.

(** On the grid each of the two conditions matches a DOF, a corner. *)
Lemma matches_grid (n : nat) (tol lt rt : Qc) :
  (0 < n)%nat -> 0 <= tol ->
  forallb (matches {| fs_mesh := grid n |})
          [left_bc n tol lt; right_bc n tol rt] = true.
Proof.
  intros Hn Ht. cbn [forallb]. rewrite andb_true_r.
  apply andb_true_intro. split; apply existsb_exists.
  - exists (node n 0 0). split.
    + apply in_seq. change (dim {| fs_mesh := grid n |}) with (vertex_count (grid n)).
      rewrite grid_dim. pose proof (node_bound n 0 0). lia.
    + apply selects_left_edge; [exact Hn|exact Ht|lia].
  - exists (node n n 0). split.
    + apply in_seq. change (dim {| fs_mesh := grid n |}) with (vertex_count (grid n)).
      rewrite grid_dim. pose proof (node_bound n n 0). lia.
    + apply selects_right_edge; [exact Hn|exact Ht|lia].
Qed.

Section Run.
Variables (tol k f lt rt : Qc) (n : Z).
Hypothesis k_pos : 0 < k.
Hypothesis n_min : (4 <= n)%Z.

Let D : Dolfin Qc := dolfin tol.
Let s0 : Solver D := __init__ D k f lt rt n.
Let V0 : function_space := {| fs_mesh := grid (Z.to_nat n) |}.
Let bcs0 := [left_bc (Z.to_nat n) tol lt; right_bc (Z.to_nat n) tol rt].

(** On a fresh instance with valid parameters [solve] gets as far as the
    forms: the mesh and the function space are built. *)
Lemma solve_reference_forms :
  solve s0 =
  if eqb f zero
  then (set_V (D := D) V0 (set_mesh (D := D) (grid (Z.to_nat n)) s0),
        inl (Raised (FormError missing_domain)))
  else match solve_variational (form_a D (params s0) V0) (form_L D (params s0) V0)
               (new_Function D V0) (conditions D (params s0) V0) with
       | inl e => (constrained D (grid (Z.to_nat n)) V0 s0, inl (Raised e))
       | inr u => (set_solution (D := D) u (constrained D (grid (Z.to_nat n)) V0 s0),
                   inr (Some (grid (Z.to_nat n) : Mesh D), Some (u : Function D)))
       end.
Proof.
  assert (Hn : (0 < Z.to_nat n)%nat) by lia.
  rewrite solve_spec. cbv zeta. unfold s0.
  cbn [params __init__ HeatEquationSolver.k HeatEquationSolver.f mesh_resolution].
  rewrite (leb_positive k k_pos), (eqb_positive k k_pos).
  destruct (Z.ltb_spec n 4); [lia|].
  cbn [UnitSquareMesh FunctionSpace_P1 dolfin_solve UFLException D dolfin orb].
  rewrite unit_square_mesh_grid by lia. rewrite P1_grid by exact Hn.
  reflexivity.
Qed.

Hypothesis tol_nonneg : 0 <= tol.
Hypothesis f_source : f <> 0.

(** What [solve] does on a fresh instance with valid parameters and a
    source that is not zero. *)
Lemma solve_reference :
  exists x : vector,
    solve s0 =
      (set_solution (D := D) {| fn_space := V0; values := x |}
         (constrained D (grid (Z.to_nat n)) V0 s0),
       inr (Some (grid (Z.to_nat n) : Mesh D),
            Some ({| fn_space := V0; values := x |} : Function D))) /\
    length x = vertex_count (grid (Z.to_nat n)) /\
    (forall d v, In (d, v) (bc_set V0 bcs0) -> vec x d = v) /\
    (forall r, (r < dim V0)%nat -> ~ In r (map fst (bc_set V0 bcs0)) ->
       row_dot (fst (assemble k f V0)) (dim V0) r (vec x) =
       nth r (snd (assemble k f V0)) 0).
Proof.
  assert (Hn : (0 < Z.to_nat n)%nat) by lia.
  destruct (reference_solve (Z.to_nat n) Hn tol k f lt rt tol_nonneg k_pos)
    as (x & Hx & Hlen & Hpre & Hfree).
  exists x. split; [|split; [exact Hlen|split; [exact Hpre|exact Hfree]]].
  rewrite solve_reference_forms, (eqb_nonzero f f_source).
  unfold solve_variational, enforce_conditions.
  cbn [stiffness_coefficient load_coefficient form_a form_L params s0 __init__
    HeatEquationSolver.k HeatEquationSolver.f new_Function fn_space dolfin D].
  match goal with
  | |- context [forallb (matches V0) ?c] =>
      replace (forallb (matches V0) c) with true
        by (symmetry; exact (matches_grid (Z.to_nat n) tol lt rt Hn tol_nonneg))
  end.
  match goal with
  | |- context [linear_solve ?S] =>
      replace (linear_solve S) with (@inr Error vector x) by (symmetry; exact Hx)
  end.
  reflexivity.
Qed.
End Run.

Lemma grid_counts (n : Z) :
  (1 <= n)%Z ->
  Z.of_nat (vertex_count (grid (Z.to_nat n))) = ((n + 1) ^ 2)%Z /\
  Z.of_nat (length (cells (grid (Z.to_nat n)))) = (2 * n ^ 2)%Z.
Proof.
  intros H. rewrite grid_dim. cbn [cells grid]. rewrite grid_cells_length. lia.
Qed.

(** Every vertex of the grid is a grid position. *)
Lemma grid_vertex (n d : nat) :
  (d < vertex_count (grid n))%nat ->
  exists ix iy, (ix <= n)%nat /\ (iy <= n)%nat /\ d = node n ix iy.
Proof. rewrite grid_dim. apply vertex_index_surj. Qed.


(** ** Runs of the facade *)

(** C2: for every resolution n >= 4 the mesh that [solve] builds has
    (n+1)^2 vertices and 2 n^2 triangles.  [_create_mesh] stores it on the
    instance; it is the mesh on the instance after [solve], whether
    [solve] returns or raises later; and when the source is not zero
    [solve] returns it, with a solution of one value per vertex. *)
Theorem mesh_counts (tol k f lt rt : Qc) (n : Z) :
  (4 <= n)%Z ->
  exists m : Mesh (dolfin tol),
    _create_mesh (__init__ (dolfin tol) k f lt rt n) =
      (set_mesh m (__init__ (dolfin tol) k f lt rt n), inr tt) /\
    Z.of_nat (num_vertices (dolfin tol) m) = ((n + 1) ^ 2)%Z /\
    Z.of_nat (length (cells m)) = (2 * n ^ 2)%Z /\
    (0 < k -> mesh (fst (solve (__init__ (dolfin tol) k f lt rt n))) = Some m) /\
    (0 < k -> 0 <= tol -> f <> 0 ->
     exists u s', solve (__init__ (dolfin tol) k f lt rt n) =
                  (s', inr (Some m, Some u)) /\
                  vector_size (dolfin tol) u = num_vertices (dolfin tol) m).
Proof.
  intros Hn. exists (grid (Z.to_nat n)).
  destruct (grid_counts n ltac:(lia)) as [Hv Hc].
  split; [|split; [exact Hv|split; [exact Hc|split]]].
  - unfold _create_mesh, bind, get, call, modify.
    cbn [params __init__ mesh_resolution UnitSquareMesh dolfin].
    rewrite unit_square_mesh_grid by lia. reflexivity.
  - intros Hk. rewrite (solve_reference_forms tol k f lt rt n Hk Hn).
    destruct (eqb f zero); [reflexivity|].
    destruct (solve_variational _ _ _ _); reflexivity.
  - intros Hk Ht Hf.
    destruct (solve_reference tol k f lt rt n Hk Hn Ht Hf) as (x & Hs & Hlen & _).
    eexists _, _. split; [exact Hs|exact Hlen].
Qed.

Lemma mesh_counts_witness :
  (4 <= 8)%Z /\
  exists m : Mesh (dolfin tolerance),
    _create_mesh (__init__ (dolfin tolerance) 1 1 (Q2Qc 100) 0 8) =
      (set_mesh m (__init__ (dolfin tolerance) 1 1 (Q2Qc 100) 0 8), inr tt) /\
    Z.of_nat (num_vertices (dolfin tolerance) m) = 81%Z /\
    Z.of_nat (length (cells m)) = 128%Z /\
    (0 < 1 ->
     mesh (fst (solve (__init__ (dolfin tolerance) 1 1 (Q2Qc 100) 0 8))) = Some m) /\
    (0 < 1 -> 0 <= tolerance -> 1 <> 0 ->
     exists u s', solve (__init__ (dolfin tolerance) 1 1 (Q2Qc 100) 0 8) =
                  (s', inr (Some m, Some u)) /\
                  vector_size (dolfin tolerance) u = num_vertices (dolfin tolerance) m).
Proof.
  assert (H : (4 <= 8)%Z) by lia.
  split; [exact H|]. exact (mesh_counts tolerance 1 1 (Q2Qc 100) 0 8 H).
Defined.

(** C4: in a solution that [solve] returns, every DOF whose vertex has x
    within the tolerance of 0 has the left temperature, and every DOF
    whose vertex has x within the tolerance of 1 has the right
    temperature; and [solve] does return one when the source is not
    zero. *)
Theorem edge_values_enforced (tol k f lt rt : Qc) (n : Z) :
  0 <= tol -> tol * Qc_of_nat (Z.to_nat n) < 1 -> 0 < k -> (4 <= n)%Z ->
  (forall (m : Mesh (dolfin tol)) (u : Function (dolfin tol)) s',
     solve (__init__ (dolfin tol) k f lt rt n) = (s', inr (Some m, Some u)) ->
     forall d, (d < num_vertices (dolfin tol) m)%nat ->
       (near (dolfin tol) (fst (point m d)) zero = true -> nth d (values u) 0 = lt) /\
       (near (dolfin tol) (fst (point m d)) one = true -> nth d (values u) 0 = rt)) /\
  (f <> 0 ->
   exists (m : Mesh (dolfin tol)) (u : Function (dolfin tol)) s',
     solve (__init__ (dolfin tol) k f lt rt n) = (s', inr (Some m, Some u))).
Proof.
  intros Ht Hfine Hk Hn.
  assert (Hn' : (0 < Z.to_nat n)%nat) by lia.
  split.
  - intros m u s' Hsolve.
    destruct (Qc_eq_dec f 0) as [Hf|Hf].
    { rewrite (solve_reference_forms tol k f lt rt n Hk Hn) in Hsolve.
      rewrite Hf in Hsolve. discriminate Hsolve. }
    destruct (solve_reference tol k f lt rt n Hk Hn Ht Hf) as (x & Hs & Hlen & Hpre & _).
    rewrite Hs in Hsolve. injection Hsolve as _ <- <-.
    intros d Hd.
    destruct (grid_vertex _ d Hd) as (ix & iy & Hx & Hy & ->).
    rewrite grid_point by assumption. cbn [fst values].
    split; intros Hnear; cbn [zero one Qc_PyFloat] in Hnear.
    + rewrite (near_left_iff (Z.to_nat n) Hn' tol Ht Hfine ix Hx) in Hnear.
      apply Nat.eqb_eq in Hnear. subst ix.
      apply (Hpre _ _ (prescribed_left (Z.to_nat n) Hn' tol lt rt Ht Hfine iy Hy)).
    + rewrite (near_right_iff (Z.to_nat n) Hn' tol Ht Hfine ix Hx) in Hnear.
      apply Nat.eqb_eq in Hnear. subst ix.
      apply (Hpre _ _ (prescribed_right (Z.to_nat n) Hn' tol lt rt Ht Hfine iy Hy)).
  - intros Hf.
    destruct (solve_reference tol k f lt rt n Hk Hn Ht Hf) as (x & Hs & _).
    eexists _, _, _. exact Hs.
Qed.

Lemma edge_values_enforced_witness :
  (0 <= tolerance /\ tolerance * Qc_of_nat (Z.to_nat 8) < 1 /\ 0 < 1 /\ (4 <= 8)%Z) /\
  ((forall (m : Mesh (dolfin tolerance)) (u : Function (dolfin tolerance)) s',
      solve (__init__ (dolfin tolerance) 1 1 (Q2Qc 100) 0 8) =
        (s', inr (Some m, Some u)) ->
      forall d, (d < num_vertices (dolfin tolerance) m)%nat ->
        (near (dolfin tolerance) (fst (point m d)) zero = true ->
         nth d (values u) 0 = Q2Qc 100) /\
        (near (dolfin tolerance) (fst (point m d)) one = true ->
         nth d (values u) 0 = 0)) /\
   (1 <> 0 ->
    exists (m : Mesh (dolfin tolerance)) (u : Function (dolfin tolerance)) s',
      solve (__init__ (dolfin tolerance) 1 1 (Q2Qc 100) 0 8) =
        (s', inr (Some m, Some u)))).
Proof.
  assert (H1 : 0 <= tolerance) by (vm_compute; discriminate).
  assert (H2 : tolerance * Qc_of_nat (Z.to_nat 8) < 1) by (vm_compute; reflexivity).
  assert (H3 : 0 < 1) by reflexivity.
  assert (H4 : (4 <= 8)%Z) by lia.
  split; [auto|].
  exact (edge_values_enforced tolerance 1 1 (Q2Qc 100) 0 8 H1 H2 H3 H4).
Defined.



(** C5: with a conductivity <= 0 or a resolution < 4, whatever the other
    parameters and whatever the library, [solve] raises [ValueError] (the
    spec's InvalidParameter) and leaves the fresh instance as it was: no
    mesh, no solution. *)
Theorem invalid_parameters_rejected {R : Type} {PF : PyFloat R} (D : Dolfin R)
    (k f lt rt : R) (n : Z) :
  leb k zero = true \/ (n < 4)%Z ->
  exists msg,
    solve (__init__ D k f lt rt n) =
      (__init__ D k f lt rt n, inl (ValueError msg)) /\
    mesh (__init__ D k f lt rt n) = None /\
    solution (__init__ D k f lt rt n) = None.
Proof.
  intros H. destruct (solve_invalid D (__init__ D k f lt rt n) H) as [msg Hm].
  exists msg. split; [exact Hm|split; reflexivity].
Qed.

Lemma invalid_parameters_rejected_witness :
  (leb (Q2Qc (-1)) zero = true \/ (32 < 4)%Z) /\
  exists msg,
    solve (__init__ (dolfin tolerance) (Q2Qc (-1)) 0 (Q2Qc 100) 0 32) =
      (__init__ (dolfin tolerance) (Q2Qc (-1)) 0 (Q2Qc 100) 0 32,
       inl (ValueError msg)) /\
    mesh (__init__ (dolfin tolerance) (Q2Qc (-1)) 0 (Q2Qc 100) 0 32) = None /\
    solution (__init__ (dolfin tolerance) (Q2Qc (-1)) 0 (Q2Qc 100) 0 32) = None.
Proof.
  assert (H : leb (Q2Qc (-1)) zero = true \/ (32 < 4)%Z) by (left; reflexivity).
  split; [exact H|].
  exact (invalid_parameters_rejected (dolfin tolerance) (Q2Qc (-1)) 0 (Q2Qc 100) 0 32 H).
Defined.

(** C1: the claim fails on the code at the input of the repository's own
    test, [k=1.0, f=0.0, left_temp=100.0, right_temp=0.0,
    mesh_resolution=8], which is valid.  Whatever the library computes,
    [solve] returns no pair there: once the mesh and the function space
    are built, [0.0 * v * dx] raises the form language's exception, so
    [test_basic_solution] ends in an exception of the library and cannot
    pass. *)
Theorem basic_solution_test_fails (F : Dolfin float) :
  let s := __init__ F 1%float 0%float 100%float 0%float 8 in
  snd (_validate_parameters s) = inr tt /\
  (forall s' r, solve s <> (s', inr r)) /\
  (forall m v, UnitSquareMesh F 8 8 = inr m -> FunctionSpace_P1 F m = inr v ->
     solve s = (set_V v (set_mesh m s),
                inl (Raised (UFLException F missing_domain)))) /\
  (exists e, test_heat_solver.test_basic_solution F =
             test_heat_solver.Errored (Raised e)).
Proof.
  cbv zeta. split; [rewrite validate_parameters_spec; reflexivity|].
  split; [|split].
  - intros s' r. rewrite solve_spec. cbv zeta.
    cbn [params __init__ HeatEquationSolver.k HeatEquationSolver.f mesh_resolution].
    change (leb 1%float zero) with false. change (8 <? 4)%Z with false.
    change (eqb 1%float zero || eqb 0%float zero) with true. cbv iota.
    destruct (UnitSquareMesh F 8 8) as [e|m]; [discriminate|].
    destruct (FunctionSpace_P1 F m); discriminate.
  - intros m v Hm Hv. rewrite solve_spec. cbv zeta.
    cbn [params __init__ HeatEquationSolver.k HeatEquationSolver.f mesh_resolution].
    change (leb 1%float zero) with false. change (8 <? 4)%Z with false.
    change (eqb 1%float zero || eqb 0%float zero) with true. cbv iota.
    rewrite Hm, Hv. reflexivity.
  - unfold test_heat_solver.test_basic_solution. cbv zeta.
    unfold test_heat_solver.construct, test_heat_solver.keyword.
    rewrite solve_spec. cbv zeta.
    cbn [params __init__ HeatEquationSolver.k HeatEquationSolver.f mesh_resolution].
    change (leb 1%float zero) with false. change (8 <? 4)%Z with false.
    change (eqb 1%float zero || eqb 0%float zero) with true. cbv iota.
    destruct (UnitSquareMesh F 8 8) as [e|m]; [eexists; reflexivity|].
    destruct (FunctionSpace_P1 F m); eexists; reflexivity.
Qed.

(** C3: the claim fails on the code: with a source [f == 0] there is no
    solution to describe.  On any instance with valid parameters, once
    the library has built the mesh and the function space, [solve] raises
    the form language's exception for the missing integration domain; the
    mesh and the function space stay on the instance, and the forms and
    the solution are as they were. *)
Theorem zero_source_is_not_solved {R : Type} {PF : PyFloat R} (D : Dolfin R)
    (s : Solver D) (m : Mesh D) (v : FunctionSpace D) :
  leb (k (params s)) zero = false -> (4 <= mesh_resolution (params s))%Z ->
  eqb (f (params s)) zero = true ->
  UnitSquareMesh D (mesh_resolution (params s)) (mesh_resolution (params s)) = inr m ->
  FunctionSpace_P1 D m = inr v ->
  solve s = (set_V v (set_mesh m s), inl (Raised (UFLException D missing_domain))) /\
  solution (fst (solve s)) = solution s /\
  a (fst (solve s)) = a s /\ L (fst (solve s)) = L s.
Proof.
  intros Hk Hn Hf Hm Hv.
  assert (E : solve s =
              (set_V v (set_mesh m s), inl (Raised (UFLException D missing_domain)))).
  { rewrite solve_spec. cbv zeta. rewrite Hk.
    destruct (Z.ltb_spec (mesh_resolution (params s)) 4); [lia|].
    rewrite Hm, Hv, Hf, orb_true_r. reflexivity. }
  rewrite E. repeat split.
Qed.

Lemma zero_source_is_not_solved_witness :
  (leb (k (params basic_run)) zero = false /\
   (4 <= mesh_resolution (params basic_run))%Z /\
   eqb (f (params basic_run)) zero = true /\
   UnitSquareMesh (dolfin tolerance) (mesh_resolution (params basic_run))
     (mesh_resolution (params basic_run)) = inr (grid 8) /\
   FunctionSpace_P1 (dolfin tolerance) (grid 8) = inr {| fs_mesh := grid 8 |}) /\
  (solve basic_run =
     (set_V (D := dolfin tolerance) {| fs_mesh := grid 8 |}
        (set_mesh (D := dolfin tolerance) (grid 8) basic_run),
      inl (Raised (UFLException (dolfin tolerance) missing_domain))) /\
   solution (fst (solve basic_run)) = solution basic_run /\
   a (fst (solve basic_run)) = a basic_run /\
   L (fst (solve basic_run)) = L basic_run).
Proof.
  assert (H1 : leb (k (params basic_run)) zero = false) by reflexivity.
  assert (H2 : (4 <= mesh_resolution (params basic_run))%Z) by (cbn; lia).
  assert (H3 : eqb (f (params basic_run)) zero = true) by reflexivity.
  assert (H4 : UnitSquareMesh (dolfin tolerance) (mesh_resolution (params basic_run))
                 (mesh_resolution (params basic_run)) = inr (grid 8)) by reflexivity.
  assert (H5 : FunctionSpace_P1 (dolfin tolerance) (grid 8) = inr {| fs_mesh := grid 8 |})
    by (vm_compute; reflexivity).
  split; [auto|].
  exact (zero_source_is_not_solved (dolfin tolerance) basic_run (grid 8)
           {| fs_mesh := grid 8 |} H1 H2 H3 H4 H5).
Defined.

(** C10: construction stores its arguments and validates nothing; the
    validation that [solve] runs looks at the conductivity and the
    resolution only, so any source and boundary temperatures pass, NaN and
    infinities included. *)
Theorem construction_does_not_validate {R : Type} {PF : PyFloat R} (D : Dolfin R)
    (k f lt rt : R) (n : Z) :
  params (__init__ D k f lt rt n) =
    {| HeatEquationSolver.k := k; HeatEquationSolver.f := f; left_temp := lt;
       right_temp := rt; mesh_resolution := n |} /\
  _validate_parameters (__init__ D k f lt rt n) =
    (__init__ D k f lt rt n,
     if leb k zero then inl (ValueError conductivity_message)
     else if (n <? 4)%Z then inl (ValueError resolution_message)
     else inr tt) /\
  (forall (F : Dolfin float) (x y z : float),
     snd (_validate_parameters (__init__ F 1%float x y z 4)) = inr tt) /\
  (forall F : Dolfin float,
     snd (_validate_parameters (__init__ F 1%float nan infinity neg_infinity 4))
     = inr tt).
Proof.
  split; [reflexivity|]. split; [apply validate_parameters_spec|].
  split; intros; rewrite validate_parameters_spec; reflexivity.
Qed.

(** *** C7 *)

(** C7, as the code has it: a failing stage's error reaches the caller as
    it was raised and no pair is returned; the parameters and the
    solution attribute keep their values; a failure of validation or of
    the mesh generator leaves the instance untouched, but after a later
    failure what was assigned before it stays on the instance: the mesh
    that [_create_mesh] built, and the function space, the forms and the
    conditions as far as they were assigned. *)
Theorem failure_keeps_built_mesh {R : Type} {PF : PyFloat R} (D : Dolfin R)
    (s s' : Solver D) (e : PyExc (DolfinError D)) :
  solve s = (s', inl e) -> failure_outcome D s s' e.
Proof.
  unfold failure_outcome. rewrite solve_spec. cbv zeta.
  destruct (leb _ _).
  { intros H. injection H as <- <-. split; [reflexivity|split; [reflexivity|]].
    left. split; [reflexivity|]. left. eexists. reflexivity. }
  destruct (_ <? _)%Z.
  { intros H. injection H as <- <-. split; [reflexivity|split; [reflexivity|]].
    left. split; [reflexivity|]. left. eexists. reflexivity. }
  destruct (UnitSquareMesh D _ _) as [e0|m] eqn:Em.
  { intros H. injection H as <- <-. split; [reflexivity|split; [reflexivity|]].
    left. split; [reflexivity|]. right. exists e0. split; reflexivity. }
  destruct (FunctionSpace_P1 D m) as [e0|v] eqn:Ev.
  { intros H. injection H as <- <-. split; [reflexivity|split; [reflexivity|]].
    right. exists m, e0. split; [reflexivity|split; [reflexivity|split; [reflexivity|]]].
    left. split; [exact Ev|reflexivity]. }
  destruct (eqb _ _ || eqb _ _) eqn:E0.
  { intros H. injection H as <- <-. split; [reflexivity|split; [reflexivity|]].
    right. exists m, (UFLException D missing_domain).
    split; [reflexivity|split; [reflexivity|split; [reflexivity|]]].
    right. exists v. split; [exact Ev|split; [reflexivity|]].
    left. split; [reflexivity|split; reflexivity]. }
  destruct (dolfin_solve D _ _ _ _) as [e0|u] eqn:Es; [|discriminate].
  intros H. injection H as <- <-. split; [reflexivity|split; [reflexivity|]].
  right. exists m, e0. split; [reflexivity|split; [reflexivity|split; [reflexivity|]]].
  right. exists v. split; [exact Ev|split; [reflexivity|]].
  right. split; [exact Es|reflexivity].
Qed.

(** The default source fails in [_setup_problem], after the mesh and the
    function space were assigned. *)
Lemma first_run_outcome :
  solve first_run =
  (set_V (D := dolfin tolerance) {| fs_mesh := grid 4 |}
     (set_mesh (D := dolfin tolerance) (grid 4) first_run),
   inl (Raised (FormError missing_domain))).
Proof. exact (solve_reference_forms tolerance 1 0 (Q2Qc 100) 0 4 eq_refl ltac:(lia)). Qed.

Lemma failure_keeps_built_mesh_witness :
  solve first_run =
    (set_V (D := dolfin tolerance) {| fs_mesh := grid 4 |}
       (set_mesh (D := dolfin tolerance) (grid 4) first_run),
     inl (Raised (FormError missing_domain))) /\
  failure_outcome (dolfin tolerance) first_run
    (set_V (D := dolfin tolerance) {| fs_mesh := grid 4 |}
       (set_mesh (D := dolfin tolerance) (grid 4) first_run))
    (Raised (FormError missing_domain)).
Proof.
  split; [exact first_run_outcome|].
  exact (failure_keeps_built_mesh _ _ _ _ first_run_outcome).
Defined.

(** The claim fails: with the default source the form construction
    raises, and the mesh built before it is on the instance, which had
    none. *)
Lemma mesh_retained_after_failure :
  mesh first_run = None /\
  snd (solve first_run) = inl (Raised (FormError missing_domain)) /\
  mesh (fst (solve first_run)) = Some (grid 4).
Proof. rewrite first_run_outcome. repeat split. Qed.

(** *** C8 *)

(** C8, as the code has it: one call of [solve] passes through the six
    stages in their order; the instance records no stage, and a second
    call on an instance that has solved is accepted: it starts again at
    validation, passes through the six stages and returns the same pair. *)
Theorem solve_may_be_repeated {R : Type} {PF : PyFloat R} (D : Dolfin R)
    (s s' : Solver D) r :
  solve s = (s', inr r) ->
  snd (run 5 Unvalidated s) = all_stages /\
  solve s' = (s', inr r) /\
  snd (run 5 Unvalidated s') = all_stages.
Proof.
  intros H. pose proof (solve_again D s s' r H) as H'.
  assert (Htrace : forall (t t' : Solver D) x, solve t = (t', inr x) ->
                     snd (run 5 Unvalidated t) = all_stages).
  { intros t t' x Ht. pose proof (run_matches_solve D t) as Hr.
    destruct (run 5 Unvalidated t) as [[t1 r1] trace].
    destruct Hr as (_ & _ & j & Hj & Hiff). cbn [snd].
    assert (j = 5%nat) by (apply Hiff; rewrite Ht; eexists; reflexivity).
    subst j. exact Hj. }
  split; [exact (Htrace _ _ _ H)|]. split; [exact H'|exact (Htrace _ _ _ H')].
Qed.



Lemma heated_run_succeeds :
  solve heated_run =
  (fst (solve heated_run),
   inr (mesh (fst (solve heated_run)), solution (fst (solve heated_run)))).
Proof.
  destruct (solve_reference tolerance 1 1 (Q2Qc 100) 0 4) as (x & Hs & _);
    [reflexivity|lia|vm_compute; discriminate|discriminate|].
  unfold heated_run. rewrite Hs. reflexivity.
Qed.

Lemma solve_may_be_repeated_witness :
  solve heated_run =
    (fst (solve heated_run),
     inr (mesh (fst (solve heated_run)), solution (fst (solve heated_run)))) /\
  (snd (run 5 Unvalidated heated_run) = all_stages /\
   solve (fst (solve heated_run)) =
     (fst (solve heated_run),
      inr (mesh (fst (solve heated_run)), solution (fst (solve heated_run)))) /\
   snd (run 5 Unvalidated (fst (solve heated_run))) = all_stages).
Proof.
  split; [exact heated_run_succeeds|].
  exact (solve_may_be_repeated _ _ _ _ heated_run_succeeds).
Defined.

(** The claim fails: a second call on the same instance is permitted and
    succeeds. *)
Lemma second_solve_succeeds :
  exists m u, snd (solve heated_run) = inr (Some m, Some u) /\
              snd (solve (fst (solve heated_run))) = inr (Some m, Some u).
Proof.
  destruct (solve_reference tolerance 1 1 (Q2Qc 100) 0 4) as (x & Hs & _);
    [reflexivity|lia|vm_compute; discriminate|discriminate|].
  eexists _, _. unfold heated_run. rewrite Hs. cbn [fst snd].
  split; [reflexivity|]. erewrite (solve_again _ _ _ _ Hs). reflexivity.
Qed.

(** * Further properties of the facade

    What the methods of [HeatEquationSolver] do on any instance, fresh or
    used, and whatever the library does. *)

Section FacadeProperties.
Context {R : Type} {PF : PyFloat R} (D : Dolfin R).

(** X1: the outcomes of [solve], on any instance.  It raises the
    conductivity [ValueError] exactly when [k <= 0], also when the
    resolution is invalid as well; the resolution [ValueError] when [k]
    passes and the resolution is below 4; an exception of the library
    only when both pass; and never an [AttributeError] or [TypeError] of
    its own, since every attribute a stage reads was assigned by an
    earlier stage.  When it returns, neither the mesh nor the solution is
    [None]. *)
Theorem solve_outcomes (s : Solver D) :
  let p := params s in
  match snd (solve s) with
  | inl (ValueError msg) =>
      (msg = conductivity_message /\ leb (k p) zero = true) \/
      (msg = resolution_message /\ leb (k p) zero = false /\
       (mesh_resolution p < 4)%Z)
  | inl (Raised _) => leb (k p) zero = false /\ (4 <= mesh_resolution p)%Z
  | inl (AttributeError _) => False
  | inl TypeError => False
  | inr (m, u) =>
      leb (k p) zero = false /\ (4 <= mesh_resolution p)%Z /\
      m <> None /\ u <> None
  end.
Proof.
  rewrite solve_spec. cbv zeta.
  destruct (leb _ _) eqn:E1; [left; split; reflexivity|].
  destruct (Z.ltb_spec (mesh_resolution (params s)) 4).
  { right. split; [reflexivity|split; [reflexivity|assumption]]. }
  destruct (UnitSquareMesh D _ _); [split; [reflexivity|assumption]|].
  destruct (FunctionSpace_P1 D _); [split; [reflexivity|assumption]|].
  destruct (eqb _ _ || eqb _ _); [split; [reflexivity|assumption]|].
  destruct (dolfin_solve D _ _ _ _); [split; [reflexivity|assumption]|].
  split; [reflexivity|split; [assumption|split; discriminate]].
Qed.

(** X2: a successful [solve] overwrites every attribute.  The instance
    it leaves is the same for any two instances with the same parameters,
    whatever mesh, space, forms, conditions or solution they held before:
    its mesh is the library's for the resolution, [V] the space over that
    mesh, [a], [L] and [bcs] the two forms and the two conditions over
    [V] (conditions do not pile up over repeated calls), its solution
    what the library's solve returned for them, and its parameters are
    untouched.  The pair returned is [(self.mesh, self.solution)]. *)
Theorem successful_solve_overwrites_attributes (s1 s2 s1' : Solver D) r :
  params s1 = params s2 -> solve s1 = (s1', inr r) ->
  solve s2 = (s1', inr r) /\
  r = (mesh s1', solution s1') /\
  let p := params s1 in
  exists m v u,
    UnitSquareMesh D (mesh_resolution p) (mesh_resolution p) = inr m /\
    FunctionSpace_P1 D m = inr v /\
    dolfin_solve D (form_a D p v) (form_L D p v) (new_Function D v)
                 (conditions D p v) = inr u /\
    s1' = {| params := p; mesh := Some m; solution := Some u; V := Some v;
             a := Some (form_a D p v); L := Some (form_L D p v);
             bcs := Some (conditions D p v) |}.
Proof.
  intros Hp. rewrite !solve_spec. cbv zeta. rewrite <- Hp.
  destruct (leb _ _); [discriminate|].
  destruct (_ <? _)%Z; [discriminate|].
  destruct (UnitSquareMesh D _ _) as [e|m]; [discriminate|].
  destruct (FunctionSpace_P1 D m) as [e|v] eqn:Ev; [discriminate|].
  destruct (eqb _ _ || eqb _ _); [discriminate|].
  destruct (dolfin_solve D _ _ _ _) as [e|u] eqn:Eu; [discriminate|].
  intros H. injection H as <- <-.
  split.
  - destruct s1, s2. simpl in Hp. subst. reflexivity.
  - split; [reflexivity|].
    exists m, v, u. split; [reflexivity|]. split; [exact Ev|]. split; [exact Eu|].
    reflexivity.
Qed.

(** X3: each stage writes its own attributes only, whether it returns or
    raises: validation writes nothing, [_create_mesh] at most [mesh],
    [_setup_problem] at most [V], [a] and [L],
    [_apply_boundary_conditions] at most [bcs], and [_solve_system] at
    most [solution].  No stage touches the parameters, and none but the
    last touches a solution left by an earlier call. *)
Theorem stages_write_their_own_attributes (s : Solver D) :
  fst (_validate_parameters s) = s /\
  (exists om, fst (_create_mesh s) =
     {| params := params s; mesh := om; solution := solution s;
        V := V s; a := a s; L := L s; bcs := bcs s |}) /\
  (exists ov oa oL, fst (_setup_problem s) =
     {| params := params s; mesh := mesh s; solution := solution s;
        V := ov; a := oa; L := oL; bcs := bcs s |}) /\
  (exists ob, fst (_apply_boundary_conditions s) =
     {| params := params s; mesh := mesh s; solution := solution s;
        V := V s; a := a s; L := L s; bcs := ob |}) /\
  (exists ou, fst (_solve_system s) =
     {| params := params s; mesh := mesh s; solution := ou;
        V := V s; a := a s; L := L s; bcs := bcs s |}).
Proof.
  destruct s as [p m u v a_ l b].
  split; [rewrite validate_parameters_spec; reflexivity|].
  split.
  { unfold _create_mesh, bind, get, call, modify. cbn [params].
    destruct (UnitSquareMesh D _ _); eexists; reflexivity. }
  split.
  { destruct m as [m|]; [|eexists _, _, _; reflexivity].
    rewrite (setup_problem_spec D
               {| params := p; mesh := Some m; solution := u; V := v;
                  a := a_; L := l; bcs := b |} m eq_refl). cbv zeta.
    destruct (FunctionSpace_P1 D m); [eexists _, _, _; reflexivity|].
    destruct (eqb _ _ || eqb _ _); eexists _, _, _; reflexivity. }
  unfold _apply_boundary_conditions, _solve_system,
    bind, get, getattr, call, modify, ret, raise. cbn [params mesh solution V a L bcs].
  split; [destruct v; eexists; reflexivity|].
  destruct v as [v|], a_ as [a_|], l as [l|], b as [b|];
    try (eexists; reflexivity).
  simpl. destruct (dolfin_solve D a_ l (new_Function D v) b); eexists; reflexivity.
Qed.

(** X4: [__init__] does not assign [V], so on an instance on which
    [_setup_problem] has not run, a fresh one for instance,
    [_apply_boundary_conditions] and [_solve_system] raise
    [AttributeError] for [V] and leave the instance as it was. *)
Theorem stages_need_function_space (s : Solver D) :
  V s = None ->
  _apply_boundary_conditions s = (s, inl (AttributeError "V")) /\
  _solve_system s = (s, inl (AttributeError "V")).
Proof.
  intros H. unfold _apply_boundary_conditions, _solve_system, bind, getattr.
  rewrite H. split; reflexivity.
Qed.
End FacadeProperties.

Lemma successful_solve_overwrites_attributes_witness :
  (params heated_run = params used_run /\
   solve heated_run =
     (fst (solve heated_run),
      inr (mesh (fst (solve heated_run)), solution (fst (solve heated_run))))) /\
  (solve used_run =
     (fst (solve heated_run),
      inr (mesh (fst (solve heated_run)), solution (fst (solve heated_run)))) /\
   (mesh (fst (solve heated_run)), solution (fst (solve heated_run))) =
     (mesh (fst (solve heated_run)), solution (fst (solve heated_run))) /\
   let p := params heated_run in
   exists m v u,
     UnitSquareMesh (dolfin tolerance) (mesh_resolution p) (mesh_resolution p) = inr m /\
     FunctionSpace_P1 (dolfin tolerance) m = inr v /\
     dolfin_solve (dolfin tolerance) (form_a (dolfin tolerance) p v)
       (form_L (dolfin tolerance) p v) (new_Function (dolfin tolerance) v)
       (conditions (dolfin tolerance) p v) = inr u /\
     fst (solve heated_run) =
       {| params := p; mesh := Some m; solution := Some u; V := Some v;
          a := Some (form_a (dolfin tolerance) p v);
          L := Some (form_L (dolfin tolerance) p v);
          bcs := Some (conditions (dolfin tolerance) p v) |}).
Proof.
  split; [split; [reflexivity|exact heated_run_succeeds]|].
  exact (successful_solve_overwrites_attributes (dolfin tolerance)
           heated_run used_run _ _ eq_refl heated_run_succeeds).
Defined.

Lemma stages_need_function_space_witness :
  V first_run = None /\
  _apply_boundary_conditions first_run = (first_run, inl (AttributeError "V")) /\
  _solve_system first_run = (first_run, inl (AttributeError "V")).
Proof.
  split; [reflexivity|].
  exact (stages_need_function_space (dolfin tolerance) first_run eq_refl).
Defined.

(** ** Binary64 parameters, defaults and the validation test *)

Lemma SFcompare_refl_finite s m e :
  SFcompare (S754_finite s m e) (S754_finite s m e) = Some Eq.
Proof.
  simpl. rewrite Z.compare_refl.
  assert (H : PosDef.Pos.compare_cont Eq m m = Eq) by apply Pos.compare_cont_refl.
  rewrite H. destruct s; reflexivity.
Qed.

(** [x <= 0] is false of a float exactly when it is NaN or positive. *)
Lemma float_leb_zero (x : float) :
  PrimFloat.leb x 0 = false <-> is_nan x = true \/ PrimFloat.ltb 0 x = true.
Proof.
  unfold is_nan. rewrite leb_spec, ltb_spec, FloatAxioms.eqb_spec.
  change (Prim2SF 0) with (S754_zero false).
  unfold SFleb, SFltb, SFeqb.
  destruct (Prim2SF x) as [s|s| |s m e] eqn:E.
  - simpl. split; [discriminate|]. intros [H|H]; discriminate.
  - destruct s; simpl.
    + split; [discriminate|]. intros [H|H]; discriminate.
    + split; [right; reflexivity|reflexivity].
  - simpl. split; [left; reflexivity|reflexivity].
  - rewrite SFcompare_refl_finite. destruct s; simpl.
    + split; [discriminate|]. intros [H|H]; discriminate.
    + split; [right; reflexivity|reflexivity].
Qed.

(** X5: with binary64 parameters, validation accepts a conductivity
    exactly when it is positive or NaN (and the resolution is at least
    4): the test [k <= 0] rejects zero, negative zero, the negatives and
    minus infinity, but is false of NaN, which passes. *)
Theorem validation_of_float_conductivity (F : Dolfin float) (k f lt rt : float)
    (n : Z) :
  snd (_validate_parameters (__init__ F k f lt rt n)) = inr tt <->
  (is_nan k = true \/ PrimFloat.ltb 0 k = true) /\ (4 <= n)%Z.
Proof.
  rewrite validate_parameters_spec.
  cbn [snd params __init__ HeatEquationSolver.k mesh_resolution].
  rewrite <- float_leb_zero. cbn [leb zero float_PyFloat].
  destruct (PrimFloat.leb k 0).
  - split; [discriminate|]. intros [H _]. discriminate.
  - destruct (Z.ltb_spec n 4).
    + split; [discriminate|]. intros [_ H']. lia.
    + split; [intros _; split; [reflexivity|assumption]|reflexivity].
Qed.

(** X6: the defaults of [__init__] are valid.  An instance constructed
    with any arguments left out passes validation exactly when the
    conductivity, if given, is not [<= 0] and the resolution, if given, is
    at least 4; so [HeatEquationSolver()] passes, whatever source and
    edge temperatures are given. *)
Theorem omitted_arguments_pass_validation (F : Dolfin float)
    (k f lt rt : option float) (n : option Z) :
  snd (_validate_parameters (test_heat_solver.construct F k f lt rt n)) = inr tt <->
  match k with Some k' => PrimFloat.leb k' 0 = false | None => True end /\
  match n with Some n' => (4 <= n')%Z | None => True end.
Proof.
  rewrite validate_parameters_spec.
  unfold test_heat_solver.construct, test_heat_solver.keyword.
  cbn [snd params __init__ HeatEquationSolver.k mesh_resolution leb zero float_PyFloat].
  destruct k as [k'|], n as [n'|].
  - destruct (PrimFloat.leb k' 0).
    + split; [discriminate|]. intros [H _]. discriminate.
    + destruct (Z.ltb_spec n' 4).
      * split; [discriminate|]. intros [_ H']. lia.
      * split; [intros _; split; [reflexivity|assumption]|reflexivity].
  - destruct (PrimFloat.leb k' 0).
    + split; [discriminate|]. intros [H _]. discriminate.
    + split; [intros _; split; [reflexivity|exact I]|reflexivity].
  - change (PrimFloat.leb 1 0) with false.
    destruct (Z.ltb_spec n' 4).
    + split; [discriminate|]. intros [_ H']. lia.
    + split; [intros _; split; [exact I|assumption]|reflexivity].
  - split; [intros _; split; exact I|reflexivity].
Qed.

(** X7: [test_parameter_validation] passes whatever the library does:
    both of its instances are rejected by validation, the first for its
    conductivity of -1.0 and the second, whose default conductivity
    passes, for its resolution of 3, and neither reaches the library. *)
Theorem test_parameter_validation_passes (F : Dolfin float) :
  test_heat_solver.test_parameter_validation F = test_heat_solver.Passed /\
  snd (solve (test_heat_solver.construct F (Some (-1)%float) None None None None))
    = inl (ValueError conductivity_message) /\
  snd (solve (test_heat_solver.construct F None None None None (Some 3%Z)))
    = inl (ValueError resolution_message).
Proof.
  unfold test_heat_solver.test_parameter_validation. rewrite !solve_spec.
  repeat split.
Qed.

(** * Further properties of the solution

    Over the reference pipeline, in exact arithmetic. *)

(** ** The two edge conditions *)

Lemma near_both_edges (tol x : Qc) :
  tol * two < 1 ->
  near (dolfin tol) x zero && near (dolfin tol) x one = false.
Proof.
  intros Ht. apply not_true_is_false. intros H. apply andb_prop in H.
  destruct H as [H0 H1]. cbn [near dolfin zero one Qc_PyFloat] in H0, H1.
  apply Qcleb_le in H0, H1.
  destruct (Qcabs_bounds (x - 0)) as [A0 _].
  destruct (Qcabs_bounds (x - 1)) as [_ A1].
  generalize dependent (Qcabs (x - 0)). generalize dependent (Qcabs (x - 1)).
  intros y1 H1 A1 y0 H0 A0. unfold two in Ht.
  revert Ht H0 H1 A0 A1. qc_unfold. intros. lra.
Qed.

(** X8: with an edge tolerance below 1/2, no point is inside both
    [LeftBoundary] and [RightBoundary], on any mesh; so no DOF is given
    two values, and the order of the two conditions in [self.bcs] does
    not matter to the value prescribed at a DOF. *)
Theorem edge_conditions_do_not_overlap (tol : Qc) (p : @Params Qc)
    (V : function_space) (d : nat) :
  tol * two < 1 ->
  (forall (x : Qc * Qc) (b : bool),
     inside (LeftBoundary (dolfin tol)) x b &&
     inside (RightBoundary (dolfin tol)) x b = false) /\
  prescribed V (conditions (dolfin tol) p V) d =
  prescribed V (rev (conditions (dolfin tol) p V)) d.
Proof.
  intros Ht.
  assert (Hno : forall (x : Qc * Qc) (b : bool),
     inside (LeftBoundary (dolfin tol)) x b &&
     inside (RightBoundary (dolfin tol)) x b = false).
  { intros x b. cbn [inside LeftBoundary RightBoundary].
    pose proof (near_both_edges tol (fst x) Ht) as H.
    destruct b; [exact H|reflexivity]. }
  split; [exact Hno|].
  unfold conditions. cbn [rev app]. rewrite !prescribed_two.
  unfold selects. cbn [bc_domain bc_value].
  specialize (Hno (point (fs_mesh V) d) (on_boundary (point (fs_mesh V) d))).
  destruct (inside (LeftBoundary (dolfin tol)) _ _),
           (inside (RightBoundary (dolfin tol)) _ _); try reflexivity.
  discriminate Hno.
Qed.

Lemma edge_conditions_do_not_overlap_witness :
  tolerance * two < 1 /\
  ((forall (x : Qc * Qc) (b : bool),
      inside (LeftBoundary (dolfin tolerance)) x b &&
      inside (RightBoundary (dolfin tolerance)) x b = false) /\
   prescribed strip_space
     (conditions (dolfin tolerance) (params first_run) strip_space) 1 =
   prescribed strip_space
     (rev (conditions (dolfin tolerance) (params first_run) strip_space)) 1).
Proof.
  assert (H : tolerance * two < 1) by (vm_compute; reflexivity).
  split; [exact H|].
  exact (edge_conditions_do_not_overlap tolerance (params first_run)
           strip_space 1 H).
Defined.

(** X9: on the mesh [solve] builds, with an edge tolerance finer than
    the mesh spacing, the left condition selects exactly the vertices of
    the first column (x = 0) and the right one exactly those of the last
    (x = 1), corners included; the vertices in between, those of the
    bottom and top edges among them, are given no value. *)
Theorem edge_conditions_select_columns (tol : Qc) (p : @Params Qc) (ix iy : nat) :
  let n := Z.to_nat (mesh_resolution p) in
  let V := {| fs_mesh := grid n |} in
  0 <= tol -> tol * Qc_of_nat n < 1 -> (4 <= mesh_resolution p)%Z ->
  (ix <= n)%nat -> (iy <= n)%nat ->
  point (grid n) (node n ix iy) =
    (Qc_of_nat ix / Qc_of_nat n, Qc_of_nat iy / Qc_of_nat n) /\
  map (fun bc => selects V bc (node n ix iy)) (conditions (dolfin tol) p V) =
    [ix =? 0; ix =? n]%nat /\
  prescribed V (conditions (dolfin tol) p V) (node n ix iy) =
    if (ix =? n)%nat then Some (right_temp p)
    else if (ix =? 0)%nat then Some (left_temp p) else None.
Proof.
  cbv zeta. set (n := Z.to_nat (mesh_resolution p)).
  intros Ht Hfine Hn Hx Hy.
  assert (Hn' : (0 < n)%nat) by lia.
  split; [apply grid_point; assumption|].
  change (conditions (dolfin tol) p {| fs_mesh := grid n |})
    with [left_bc n tol (left_temp p); right_bc n tol (right_temp p)].
  split.
  - cbn [map].
    rewrite (selects_left n Hn' tol Ht Hfine (left_temp p) ix iy Hx Hy).
    rewrite (selects_right n Hn' tol Ht Hfine (right_temp p) ix iy Hx Hy).
    reflexivity.
  - apply (prescribed_fine n Hn' tol (left_temp p) (right_temp p) Ht Hfine ix iy Hx Hy).
Qed.

Lemma edge_conditions_select_columns_witness :
  (0 <= tolerance /\ tolerance * Qc_of_nat 4 < 1 /\ (4 <= 4)%Z /\
   (2 <= 4)%nat /\ (0 <= 4)%nat) /\
  (point (grid 4) (node 4 2 0) = (Qc_of_nat 2 / Qc_of_nat 4, Qc_of_nat 0 / Qc_of_nat 4) /\
   map (fun bc => selects {| fs_mesh := grid 4 |} bc (node 4 2 0))
       (conditions (dolfin tolerance) (params first_run) {| fs_mesh := grid 4 |}) =
     [false; false] /\
   prescribed {| fs_mesh := grid 4 |}
     (conditions (dolfin tolerance) (params first_run) {| fs_mesh := grid 4 |})
     (node 4 2 0) = None).
Proof.
  assert (H1 : 0 <= tolerance) by (vm_compute; discriminate).
  assert (H2 : tolerance * Qc_of_nat 4 < 1) by (vm_compute; reflexivity).
  assert (H3 : (4 <= 4)%Z) by lia.
  assert (H4 : (2 <= 4)%nat) by lia.
  assert (H5 : (0 <= 4)%nat) by lia.
  split; [auto|].
  exact (edge_conditions_select_columns tolerance (params first_run) 2 0
           H1 H2 H3 H4 H5).
Defined.

(** ** A constant source

    The load vector as a linear form, and the solution for any constant
    source: the parabola of the one-dimensional problem, at every vertex. *)

Lemma load_row_dot (es : list (nat * Qc)) n w :
  Forall (fun e => (fst e < n)%nat) es ->
  sum_over (fun r => w r * nth r (fold_left scatter_add_vector es (zeros n)) 0)
           (seq 0 n) =
  sum_over (fun e => w (fst e) * snd e) es.
Proof.
  intros Hes.
  rewrite (sum_over_ext _ (fun r => sum_over (fun e =>
     if r =? fst e then w r * snd e else 0) es)).
  2:{ intros r Hr. apply in_seq in Hr.
      rewrite assembled_vector by (unfold zeros; rewrite repeat_length; lia).
      unfold zeros. rewrite nth_repeat_lt by lia. rewrite Qcplus_0_l.
      rewrite <- sum_over_scale. apply sum_over_ext. intros e _.
      unfold hits_row. rewrite (Nat.eqb_sym r). destruct (fst e =? r); ring. }
  rewrite sum_over_swap. apply sum_over_ext. intros e He.
  rewrite Forall_forall in Hes.
  apply (sum_over_pick (fun r => w r * snd e)). apply Hes, He.
Qed.

Lemma element_load_in_range f m t n e :
  in_range n t -> In e (element_load f m t) -> (fst e < n)%nat.
Proof.
  unfold element_load.
  destruct (local_basis_three m t) as (i0 & i1 & i2 & g0 & g1 & g2 & -> & ->).
  intros (H0 & H1 & H2). simpl in *.
  intros H. repeat (destruct H as [<-|H]; [simpl; lia|]). destruct H.
Qed.

Lemma assemble_linear k f V w :
  Forall (in_range (dim V)) (cells (fs_mesh V)) ->
  sum_over (fun r => w r * nth r (snd (assemble k f V)) 0) (seq 0 (dim V)) =
  load_form f (fs_mesh V) w.
Proof.
  intros Hcells. unfold assemble. cbn [snd].
  rewrite load_row_dot.
  - rewrite sum_over_flat_map. unfold load_form. apply sum_over_ext.
    intros t _. unfold element_load. rewrite sum_over_map. reflexivity.
  - apply Forall_forall. intros e He. apply in_flat_map in He.
    destruct He as [t [Ht He]]. rewrite Forall_forall in Hcells.
    eapply element_load_in_range; [apply Hcells|]; eassumption.
Qed.

(** Against a function that vanishes on the two constrained columns, the
    energy of the parabola's nodal values is the load. *)
Section Source.
Variable n : nat.
Hypothesis n_pos : (0 < n)%nat.
Variables tol k f lt rt : Qc.
Hypothesis tol_nonneg : 0 <= tol.
Hypothesis tol_fine : tol * Qc_of_nat n < 1.
Hypothesis k_pos : 0 < k.

Let V : function_space := {| fs_mesh := grid n |}.
Let bcs := [left_bc n tol lt; right_bc n tol rt].
Let N : nat := dim V.
Let q : Qc := Qc_of_nat n.
Let q_pos : 0 < q := Qc_of_nat_pos n n_pos.

Lemma k_nonzero : k <> 0.
Proof. intros E. rewrite E in k_pos. discriminate k_pos. Qed.

Lemma profile_node ix iy :
  (ix <= n)%nat -> (iy <= n)%nat ->
  profile n k f lt rt (node n ix iy) = parabola k f lt rt (Qc_of_nat ix / q).
Proof. intros Hx Hy. unfold profile. rewrite grid_point by assumption. reflexivity. Qed.

Lemma free_load (w : nat -> Qc) (x : vector) :
  (forall d, In d (map fst (bc_set V bcs)) -> w d = 0) ->
  (forall r, (r < N)%nat -> ~ In r (map fst (bc_set V bcs)) ->
     row_dot (fst (assemble k f V)) N r (vec x) = nth r (snd (assemble k f V)) 0) ->
  energy_form k (grid n) w (vec x) = load_form f (grid n) w.
Proof.
  intros Hw Hx.
  assert (Hcells : Forall (in_range (dim V)) (cells (fs_mesh V))).
  { change (dim V) with (vertex_count (grid n)). rewrite grid_dim.
    apply grid_cells_in_range, n_pos. }
  change (grid n) with (fs_mesh V).
  rewrite <- (assemble_bilinear k f V w (vec x) Hcells).
  rewrite <- (assemble_linear k f V w Hcells).
  apply sum_over_ext. intros r Hr. apply in_seq in Hr.
  destruct (in_dec Nat.eq_dec r (map fst (bc_set V bcs))) as [Hin|Hout].
  - rewrite (Hw r Hin). ring.
  - change (dim V) with N. rewrite (Hx r) by (assumption || (unfold N; lia)).
    reflexivity.
Qed.

Lemma load_form_grid (w : nat -> Qc) :
  load_form f (grid n) w =
  sum_over (fun iy => sum_over (fun ix =>
      f / (two * three * q * q) *
      (two * w (node n ix iy) + w (node n (S ix) iy) +
       two * w (node n (S ix) (S iy)) + w (node n ix (S iy))))
    (seq 0 n)) (seq 0 n).
Proof.
  unfold load_form. rewrite sum_over_grid_cells.
  apply sum_over_ext. intros iy Hy. apply in_seq in Hy.
  apply sum_over_ext. intros ix Hx. apply in_seq in Hx.
  rewrite lower_triangle_area, upper_triangle_area by (assumption || lia).
  rewrite lower_local_basis, upper_local_basis by (assumption || lia).
  unfold sum_over. simpl. fold q. unfold two, three. field.
  repeat split; try discriminate. apply (q_nonzero n n_pos).
Qed.

Variable w : nat -> Qc.
Hypothesis w_left : forall iy, (iy <= n)%nat -> w (node n 0 iy) = 0.
Hypothesis w_right : forall iy, (iy <= n)%nat -> w (node n n iy) = 0.

(** Per row, what the cell at [ix] contributes to energy minus load is a
    difference of a quantity that vanishes with [w]. *)
Let G (ix : nat) : Qc :=
  (rt - lt) / q + f / (two * k) * ((1 - (two * Qc_of_nat ix - 1) / q) / q).
Let Phi (iy ix : nat) : Qc :=
  k / two * (w (node n ix iy) + w (node n ix (S iy))) * G ix
  - f / (two * three * q * q) * (w (node n ix iy) + two * w (node n ix (S iy))).

Lemma energy_against_profile :
  energy_form k (grid n) w (profile n k f lt rt) = load_form f (grid n) w.
Proof.
  apply Qc_minus_eq.
  rewrite load_form_grid. unfold energy_form. rewrite sum_over_grid_cells.
  rewrite <- sum_over_minus.
  rewrite (sum_over_ext _ (fun _ => 0)); [apply sum_over_zero|].
  intros iy Hy. apply in_seq in Hy.
  rewrite <- sum_over_minus.
  rewrite (sum_over_ext _ (fun ix => Phi iy (S ix) - Phi iy ix)).
  - rewrite (sum_over_telescope (Phi iy) n). unfold Phi.
    rewrite !w_left, !w_right by lia. ring.
  - intros ix Hx. apply in_seq in Hx.
    rewrite lower_triangle_area, upper_triangle_area by (assumption || lia).
    rewrite !lower_gradient, !upper_gradient by (assumption || lia).
    rewrite !profile_node by lia.
    unfold dot2, Phi, G, parabola. cbn [fst snd]. fold q.
    rewrite !Qc_of_nat_S.
    generalize (w (node n ix iy)) (w (node n (S ix) iy))
               (w (node n (S ix) (S iy))) (w (node n ix (S iy))) (Qc_of_nat ix).
    intros w00 w10 w11 w01 a.
    unfold two, three. field.
    repeat split; first [discriminate | exact k_nonzero | apply (q_nonzero n n_pos)].
Qed.
End Source.

(** A solution of the constrained system is the parabola everywhere. *)
Section Parabolic.
Variable n : nat.
Hypothesis n_pos : (0 < n)%nat.
Variables tol k f lt rt : Qc.
Hypothesis tol_nonneg : 0 <= tol.
Hypothesis tol_fine : tol * Qc_of_nat n < 1.
Hypothesis k_pos : 0 < k.

Let V : function_space := {| fs_mesh := grid n |}.
Let bcs := [left_bc n tol lt; right_bc n tol rt].
Let N : nat := dim V.
Let q : Qc := Qc_of_nat n.

Variable x : vector.
Hypothesis x_prescribed : forall d v, In (d, v) (bc_set V bcs) -> vec x d = v.
Hypothesis x_free :
  forall r, (r < N)%nat -> ~ In r (map fst (bc_set V bcs)) ->
    row_dot (fst (assemble k f V)) N r (vec x) = nth r (snd (assemble k f V)) 0.

Let w : nat -> Qc := fun d => vec x d - profile n k f lt rt d.

Lemma residue_left iy : (iy <= n)%nat -> w (node n 0 iy) = 0.
Proof.
  intros Hy. unfold w.
  rewrite (x_prescribed _ _ (prescribed_left n n_pos tol lt rt tol_nonneg tol_fine iy Hy)).
  rewrite (profile_node n k f lt rt) by lia. unfold parabola.
  rewrite Qc_of_nat_0. unfold Qcdiv. ring.
Qed.

Lemma residue_right iy : (iy <= n)%nat -> w (node n n iy) = 0.
Proof.
  intros Hy. unfold w.
  rewrite (x_prescribed _ _ (prescribed_right n n_pos tol lt rt tol_nonneg tol_fine iy Hy)).
  rewrite (profile_node n k f lt rt) by lia. unfold parabola, two.
  field. repeat split; first [discriminate | apply (k_nonzero k k_pos) | apply (q_nonzero n n_pos)].
Qed.

Lemma residue_prescribed d : In d (map fst (bc_set V bcs)) -> w d = 0.
Proof.
  intros H.
  destruct (prescribed_only n n_pos tol lt rt tol_nonneg tol_fine d H)
    as (ix & iy & Hx & Hy & -> & [->| ->]).
  - apply residue_left, Hy.
  - apply residue_right, Hy.
Qed.

Theorem solution_is_profile d : (d < N)%nat -> vec x d = profile n k f lt rt d.
Proof.
  intros Hd. apply Qc_minus_eq.
  apply (vanishes_everywhere n n_pos tol k lt rt tol_nonneg k_pos w residue_prescribed).
  - assert (E : energy_form k (grid n) w w =
                energy_form k (grid n) w (vec x) -
                energy_form k (grid n) w (profile n k f lt rt))
      by apply (energy_form_minus k (grid n) w (vec x) (profile n k f lt rt)).
    rewrite E.
    rewrite (free_load n n_pos tol k f lt rt w x residue_prescribed x_free).
    rewrite (energy_against_profile n n_pos k f lt rt k_pos w residue_left residue_right).
    ring.
  - exact Hd.
Qed.
End Parabolic.

(** X10: for any constant source [f] other than 0 and conductivity [k > 0], the
    solution is, at every vertex and whatever its y, the solution of
    [-k u'' = f] between the two edge temperatures,
    [lt + x (rt - lt) + f / (2 k) * x (1 - x)]; at x = 1/2 it is the mean
    of the two temperatures plus [f / (8 k)].  So the source enters with
    the sign and the weight [1 / k] that [_setup_problem] gives it. *)
Theorem constant_source_solution_is_parabolic (tol k f lt rt : Qc) (n : Z) :
  0 <= tol -> tol * Qc_of_nat (Z.to_nat n) < 1 -> 0 < k -> (4 <= n)%Z -> f <> 0 ->
  exists (m : Mesh (dolfin tol)) (u : Function (dolfin tol)) s',
    solve (__init__ (dolfin tol) k f lt rt n) = (s', inr (Some m, Some u)) /\
    (forall d, (d < num_vertices (dolfin tol) m)%nat ->
       nth d (values u) 0 = parabola k f lt rt (fst (point m d))) /\
    (forall d, (d < num_vertices (dolfin tol) m)%nat ->
       fst (point m d) = 1 / two ->
       nth d (values u) 0 = (lt + rt) / two + f / (two * two * two * k)).
Proof.
  intros Ht Hfine Hk Hn Hf.
  assert (Hn' : (0 < Z.to_nat n)%nat) by lia.
  destruct (solve_reference tol k f lt rt n Hk Hn Ht Hf) as (x & Hs & Hlen & Hpre & Hfree).
  assert (Hpar : forall d, (d < vertex_count (grid (Z.to_nat n)))%nat ->
            nth d x 0 = parabola k f lt rt (fst (point (grid (Z.to_nat n)) d))).
  { intros d Hd.
    exact (solution_is_profile (Z.to_nat n) Hn' tol k f lt rt Ht Hfine Hk x Hpre Hfree d Hd). }
  eexists _, _, _. split; [exact Hs|]. split; [exact Hpar|].
  intros d Hd Hx. cbn [values]. rewrite (Hpar d Hd), Hx.
  unfold parabola, two. field.
  repeat split; first [discriminate | intros E; rewrite E in Hk; discriminate Hk].
Qed.

Lemma constant_source_solution_is_parabolic_witness :
  (0 <= tolerance /\ tolerance * Qc_of_nat (Z.to_nat 8) < 1 /\ 0 < two /\ (4 <= 8)%Z /\
   Q2Qc 16 <> 0) /\
  exists (m : Mesh (dolfin tolerance)) (u : Function (dolfin tolerance)) s',
    solve (__init__ (dolfin tolerance) two (Q2Qc 16) (Q2Qc 100) 0 8) =
      (s', inr (Some m, Some u)) /\
    (forall d, (d < num_vertices (dolfin tolerance) m)%nat ->
       nth d (values u) 0 = parabola two (Q2Qc 16) (Q2Qc 100) 0 (fst (point m d))) /\
    (forall d, (d < num_vertices (dolfin tolerance) m)%nat ->
       fst (point m d) = 1 / two ->
       nth d (values u) 0 = (Q2Qc 100 + 0) / two + Q2Qc 16 / (two * two * two * two)).
Proof.
  assert (H1 : 0 <= tolerance) by (vm_compute; discriminate).
  assert (H2 : tolerance * Qc_of_nat (Z.to_nat 8) < 1) by (vm_compute; reflexivity).
  assert (H3 : 0 < two) by reflexivity.
  assert (H4 : (4 <= 8)%Z) by lia.
  assert (H5 : Q2Qc 16 <> 0) by discriminate.
  split; [auto|].
  exact (constant_source_solution_is_parabolic tolerance two (Q2Qc 16) (Q2Qc 100) 0 8
           H1 H2 H3 H4 H5).
Defined.
